(** * A shallow embedding of [nfc_player.py] (NFC_Player)

    The model covers the parts of the program that the registry, the
    provisioning callback [read_and_assign], its caller [write_loop], the
    standby callback [read_and_play] and the [VLC] wrapper are built from.
    Python [str] values are modelled as Rocq [string]s holding their UTF-8
    encoding: [str.isspace] decodes them and follows CPython's whole
    whitespace table, the other character functions ([strip], [upper])
    follow CPython on the ASCII range. *)

From Stdlib Require Import String Ascii List Bool Arith NArith Lia Sorted Permutation.
Import ListNotations.
Open Scope string_scope.
Open Scope list_scope.
Open Scope nat_scope.

(* ------------------------------------------------------------------ *)
(** ** Python string helpers *)

Module Py.

(** ASCII whitespace on one byte: \t \n \v \f \r (9-13), the separators
    \x1c-\x1f (28-31) and the space (32); the bytes [strip] removes. *)
Definition is_space_char (c : ascii) : bool :=
  let n := nat_of_ascii c in
  (Nat.leb 9 n && Nat.leb n 13) || (Nat.leb 28 n && Nat.leb n 32).


(** The payload of a UTF-8 continuation byte (10xxxxxx). *)
Definition cont_bits (c : ascii) : option N :=
  let n := N_of_ascii c in
  if N.leb 128 n && N.ltb n 192 then Some (n - 128)%N else None.

(** UTF-8 decoding into code points; [None] on a malformed sequence
    (overlong forms, surrogates and code points above U+10FFFF included). *)
Fixpoint utf8_decode (l : list ascii) : option (list N) :=
  match l with
  | [] => Some []
  | c :: r =>
      let n := N_of_ascii c in
      if N.ltb n 128 then option_map (cons n) (utf8_decode r)
      else if N.leb 194 n && N.ltb n 224 then
        match r with
        | c1 :: r1 =>
            match cont_bits c1 with
            | Some x1 => option_map (cons ((n - 192) * 64 + x1)%N) (utf8_decode r1)
            | None => None
            end
        | [] => None
        end
      else if N.leb 224 n && N.ltb n 240 then
        match r with
        | c1 :: c2 :: r2 =>
            match cont_bits c1, cont_bits c2 with
            | Some x1, Some x2 =>
                let cp := ((n - 224) * 4096 + x1 * 64 + x2)%N in
                if N.leb 2048 cp && negb (N.leb 55296 cp && N.leb cp 57343)
                then option_map (cons cp) (utf8_decode r2) else None
            | _, _ => None
            end
        | _ => None
        end
      else if N.leb 240 n && N.ltb n 245 then
        match r with
        | c1 :: c2 :: c3 :: r3 =>
            match cont_bits c1, cont_bits c2, cont_bits c3 with
            | Some x1, Some x2, Some x3 =>
                let cp := ((n - 240) * 262144 + x1 * 4096 + x2 * 64 + x3)%N in
                if N.leb 65536 cp && N.leb cp 1114111
                then option_map (cons cp) (utf8_decode r3) else None
            | _, _, _ => None
            end
        | _ => None
        end
      else None
  end.

(** [str.isspace] on one code point: CPython's [_PyUnicode_IsWhitespace],
    U+0009-U+000D, U+001C-U+0020, U+0085, U+00A0, U+1680, U+2000-U+200A,
    U+2028, U+2029, U+202F, U+205F and U+3000. *)
Definition is_space_cp (n : N) : bool :=
  (N.leb 9 n && N.leb n 13) || (N.leb 28 n && N.leb n 32)
  || N.eqb n 133 || N.eqb n 160 || N.eqb n 5760
  || (N.leb 8192 n && N.leb n 8202)
  || N.eqb n 8232 || N.eqb n 8233 || N.eqb n 8239 || N.eqb n 8287
  || N.eqb n 12288.

(** [s.isspace()]: true when [s] is non-empty and all its characters are
    whitespace.  A Rocq string that is not valid UTF-8 is no Python [str];
    it is given [false]. *)
Definition isspace (s : string) : bool :=
  match utf8_decode (list_ascii_of_string s) with
  | Some (c :: cs) => forallb is_space_cp (c :: cs)
  | _ => false
  end.

(** Truthiness of a [str]: non-empty. *)
Definition truthy (s : string) : bool :=
  negb (String.eqb s "").

(** [s.split(sep)] for a one-character separator. *)
Fixpoint split (sep : ascii) (s : string) : list string :=
  match s with
  | EmptyString => [""]
  | String c r =>
      let parts := split sep r in
      if Ascii.eqb c sep then "" :: parts
      else match parts with
           | p :: ps => String c p :: ps
           | [] => [String c ""]
           end
  end.

(** [sep.join(xs)]. *)
Fixpoint join (sep : string) (xs : list string) : string :=
  match xs with
  | [] => ""
  | [x] => x
  | x :: rest => (x ++ sep ++ join sep rest)%string
  end.

Fixpoint starts_with (p s : string) : bool :=
  match p, s with
  | EmptyString, _ => true
  | String a p', String b s' => Ascii.eqb a b && starts_with p' s'
  | String _ _, EmptyString => false
  end.

Fixpoint repeat_str (n : nat) (s : string) : string :=
  match n with
  | 0 => ""
  | S k => (s ++ repeat_str k s)%string
  end.

End Py.

(* ------------------------------------------------------------------ *)
(** ** [os.path.normpath] (posixpath) *)

Module PosixPath.

Definition sep := "/".
Definition sep_c := "/"%char.

(** The number of leading slashes kept: 1, or 2 for exactly two. *)
Definition initial_slashes (path : string) : nat :=
  if Py.starts_with sep path then
    if Py.starts_with "//" path && negb (Py.starts_with "///" path) then 2
    else 1
  else 0.

(** One turn of the component loop; [new_comps] is kept reversed, its head
    is Python's [new_comps[-1]]. *)
Definition step (initial : nat) (new_comps : list string) (comp : string)
  : list string :=
  if String.eqb comp "" || String.eqb comp "." then new_comps
  else if negb (String.eqb comp "..")
          || ((initial =? 0) && match new_comps with [] => true | _ => false end)
          || match new_comps with
             | last :: _ => String.eqb last ".."
             | [] => false
             end
  then comp :: new_comps
  else match new_comps with
       | _ :: rest => rest
       | [] => []
       end.

Definition normpath (path : string) : string :=
  if String.eqb path "" then "."
  else
    let initial := initial_slashes path in
    let comps := Py.split sep_c path in
    let new_comps := rev (fold_left (step initial) comps []) in
    let p := Py.join sep new_comps in
    let p := if initial =? 0 then p else (Py.repeat_str initial sep ++ p)%string in
    if String.eqb p "" then "." else p.

End PosixPath.

(* ------------------------------------------------------------------ *)
(** ** The [VLC] wrapper *)

Module VLC.

(** [vlc.State]. *)
Inductive vstate :=
| NothingSpecial | Opening | Buffering | Playing | Paused | Stopped | Ended | Error.

Definition vstate_eqb (a b : vstate) : bool :=
  match a, b with
  | NothingSpecial, NothingSpecial | Opening, Opening | Buffering, Buffering
  | Playing, Playing | Paused, Paused | Stopped, Stopped | Ended, Ended
  | Error, Error => true
  | _, _ => false
  end.

(** The calls the wrapper makes into libvlc, and its log lines. *)
Inductive cmd :=
| ListPlay                     (** [MediaListPlayer.play()] *)
| ListPause                    (** [MediaListPlayer.pause()] *)
| ListStop                     (** [MediaListPlayer.stop()] *)
| PlayerStop                   (** [MediaPlayer.stop()]: the hard stop *)
| Sleep                        (** [time.sleep(0.5)] *)
| MediaNew (mrl : string)      (** [Instance.media_new(mrl)], parsed and added *)
| SetMediaList (l : list string) (** [MediaListPlayer.set_media_list(...)] *)
| SetPlaybackModeDefault
| LogInfo (msg : string)
| LogWarning (msg : string).

(** The wrapper's objects: the MRLs in [self.MediaList], and those of the
    list last handed to the [MediaListPlayer]. *)
Record vlc := mkVLC {
  media_list : list string;
  player_list : list string
}.

(** The engine is asynchronous: [obs n] is the state [get_state()] reports
    once [n] commands of the current call have been issued. *)
Definition oracle := nat -> vstate.

Definition timeout_message (desired : vstate) : string :=
  match desired with
  | Playing => "Error when playing the playlist."
  | Paused => "Error when pausing the playlist."
  | _ => "Action could not be completed."
  end.

(** The [while] loop of [__action_timeout].  [wait] counts half seconds
    (the Python float only takes the values 0.5 * k, all exact), so the
    loop bound [wait < timeout] reads [wait < limit] with
    [limit = 2 * timeout]; [fuel] only bounds the recursion, the loop
    itself stops by its own test once [wait] reaches [limit]. *)
Fixpoint action_loop (action : cmd) (desired : vstate) (obs : oracle)
         (limit fuel wait : nat) : list cmd * nat :=
  match fuel with
  | 0 => ([], wait)
  | S fuel' =>
      if negb (vstate_eqb (obs wait) desired) && (wait <? limit) then
        let '(cs, w) := action_loop action desired obs limit fuel' (S wait) in
        (action :: Sleep :: cs, w)
      else ([], wait)
  end.

(** [VLC.__action_timeout(action, desired_state, timeout)]: the commands
    issued and the exception raised, if any. *)
Definition action_timeout (action : cmd) (desired : vstate) (timeout : nat)
           (obs : oracle) : list cmd * option string :=
  let limit := 2 * timeout in
  let '(cs, wait) := action_loop action desired obs limit limit 0 in
  if limit <=? wait then (cs, Some (timeout_message desired)) else (cs, None).

(** [try: self.__action_timeout(...); log ok  except: log; MediaPlayer.stop()]:
    the bare [except] catches everything, so nothing escapes. *)
Definition guarded (action : cmd) (desired : vstate) (ok fail : string)
           (obs : oracle) : list cmd * option string :=
  match action_timeout action desired 3 obs with
  | (cs, None) => (cs ++ [LogInfo ok], None)
  | (cs, Some _) => (cs ++ [LogWarning fail; PlayerStop], None)
  end.

(** [VLC.play]; the second component is the exception that escapes. *)
Definition play (v : vlc) (obs : oracle) : list cmd * option string :=
  if 0 <? length (media_list v) then
    guarded ListPlay Playing "Playing." "Failed to play media player." obs
  else ([LogInfo "Can't play, no media in playlist."], None).

(** [VLC.pause]. *)
Definition pause (v : vlc) (obs : oracle) : list cmd * option string :=
  if vstate_eqb (obs 0) Playing then
    guarded ListPause Paused "Paused playlist" "Failed to pause media player." obs
  else ([], None).

(** [VLC.stop] ([self.MediaListPlayer] is never [None] after [__init__]). *)
Definition stop (v : vlc) (obs : oracle) : list cmd * option string :=
  guarded ListStop Stopped "Stopped" "Failed to stop media player." obs.

(** [VLC.clear_playlist]: stop, then a fresh empty [MediaList]. *)
Definition clear_playlist (v : vlc) : list cmd * vlc :=
  ([ListStop], mkVLC [] (player_list v)).

(** What Python's [for track in track_list] iterates over: a list of
    strings, or a [str], whose iteration yields its characters. *)
Inductive pyiter :=
| PyList (l : list string)
| PyStr (s : string).

Fixpoint chars (s : string) : list string :=
  match s with
  | EmptyString => []
  | String c r => String c "" :: chars r
  end.

Definition iter (x : pyiter) : list string :=
  match x with
  | PyList l => l
  | PyStr s => chars s
  end.

(** [VLC.add_track_mrls], the playlist replacement. *)
Definition add_track_mrls (v : vlc) (track_list : pyiter) : list cmd * vlc :=
  let '(cs0, v0) := clear_playlist v in
  let tracks := iter track_list in
  let ml := media_list v0 ++ tracks in
  (cs0 ++ map MediaNew tracks ++ [SetMediaList ml; SetPlaybackModeDefault],
   mkVLC ml ml).

(** The three calls wrapped in [__action_timeout]: the command each
    issues, the state it waits for, its warning, and its own guard. *)
Inductive call := CPlay | CPause | CStop.

Definition run_call (c : call) (v : vlc) (obs : oracle) : list cmd * option string :=
  match c with
  | CPlay => play v obs
  | CPause => pause v obs
  | CStop => stop v obs
  end.

Definition command (c : call) : cmd :=
  match c with CPlay => ListPlay | CPause => ListPause | CStop => ListStop end.

Definition desired (c : call) : vstate :=
  match c with CPlay => Playing | CPause => Paused | CStop => Stopped end.

Definition failure_warning (c : call) : string :=
  match c with
  | CPlay => "Failed to play media player."
  | CPause => "Failed to pause media player."
  | CStop => "Failed to stop media player."
  end.

(** The guard in front of the retry loop: [self.MediaList.count() > 0]
    for [play], [get_state() == Playing] for [pause], none for [stop]. *)
Definition guard (c : call) (v : vlc) (obs : oracle) : Prop :=
  match c with
  | CPlay => 0 < length (media_list v)
  | CPause => obs 0 = Playing
  | CStop => True
  end.

(** [k] attempts: the command, then a half-second sleep, [k] times. *)
Definition attempts (a : cmd) (k : nat) : list cmd :=
  concat (repeat [a; Sleep] k).

End VLC.

(* ------------------------------------------------------------------ *)
(** ** The world of the provisioning and standby callbacks *)

Module Prov.

(** A row of the [music(uuid, path)] table.  The table has no key or
    UNIQUE constraint; rows are kept in rowid order, which is the order a
    plain table scan ([SELECT ... WHERE uuid = ?] with [fetchone]) meets
    them in. *)
Definition row := (string * string)%type.
Definition registry := list row.

Inductive level := Debug | Info | Warning | Error | Critical.

Inductive event :=
| EDelete (u : option string)    (** [DELETE FROM music WHERE uuid=u]; commit *)
| EInsert (u p : string)         (** [INSERT INTO music VALUES(u, p)]; commit *)
| EMint (u : string)             (** [self.tag.UUID = "NFCMP_" + str(uuid4())] *)
| ETagWrite (u : string)         (** [self.tag.Tag.ndef.records = [TextRecord(u)]] *)
| ELog (l : level) (msg : string)
| EPrint (msg : string)
| EVlc (c : VLC.cmd).

(** The nfcpy tag object: presence and the decoded text records of its
    NDEF message ([ndef] is [None] when the tag carries no NDEF data).  A
    message that [message_decoder] cannot decode, or whose first record is
    not a text record (no [.text]), is outside the model. *)
Record tag_handle := mkTag {
  is_present : bool;
  ndef : option (list string)
}.

(** The Python exceptions that can leave [read_and_assign]. *)
Inductive exc :=
| TagCommandError
| AttributeError
| IndexError
| EOFError
| Other (msg : string).

Record world := mkWorld {
  reg : registry;            (** the [music] table *)
  hist : list registry;      (** the table after each commit, oldest first *)
  trace : list event;        (** observable actions, oldest first *)
  tag : tag_handle;          (** [self.tag.Tag] *)
  tag_uuid : option string;  (** [self.tag.UUID] *)
  batch_dirs : list string;  (** [self.batch_dirs] *)
  prev_uuid : option string; (** [self.prev_uuid]; [None] is the initial [-1] *)
  player : VLC.vlc           (** [self.VLC] *)
}.

(** State and exception monad threading the world. *)
Definition M (A : Type) := world -> (A + exc) * world.

Definition ret {A} (a : A) : M A := fun w => (inl a, w).
Definition bind {A B} (m : M A) (f : A -> M B) : M B :=
  fun w => match m w with
           | (inl a, w') => f a w'
           | (inr e, w') => (inr e, w')
           end.
Definition raise {A} (e : exc) : M A := fun w => (inr e, w).
(** [try m except e: h(e)] for the exceptions [handles] selects. *)
Definition catch {A} (handles : exc -> bool) (m : M A) (h : exc -> M A) : M A :=
  fun w => match m w with
           | (inr e, w') => if handles e then h e w' else (inr e, w')
           | r => r
           end.

Notation "x <- m ;; k" := (bind m (fun x => k))
  (at level 61, m at next level, right associativity).
Notation "m ;;; k" := (bind m (fun _ => k))
  (at level 61, right associativity).

Definition gets {A} (f : world -> A) : M A := fun w => (inl (f w), w).

Definition emit (e : event) : M unit :=
  fun w => (inl tt, mkWorld (reg w) (hist w) (trace w ++ [e]) (tag w)
                         (tag_uuid w) (batch_dirs w) (prev_uuid w) (player w)).
Definition log (l : level) (msg : string) : M unit := emit (ELog l msg).
Definition print (msg : string) : M unit := emit (EPrint msg).

Definition set_tag_uuid (u : option string) : M unit :=
  fun w => (inl tt, mkWorld (reg w) (hist w) (trace w) (tag w) u
                         (batch_dirs w) (prev_uuid w) (player w)).
Definition set_tag (t : tag_handle) : M unit :=
  fun w => (inl tt, mkWorld (reg w) (hist w) (trace w) t (tag_uuid w)
                         (batch_dirs w) (prev_uuid w) (player w)).
Definition set_batch_dirs (l : list string) : M unit :=
  fun w => (inl tt, mkWorld (reg w) (hist w) (trace w) (tag w) (tag_uuid w)
                         l (prev_uuid w) (player w)).
Definition set_prev_uuid (u : option string) : M unit :=
  fun w => (inl tt, mkWorld (reg w) (hist w) (trace w) (tag w) (tag_uuid w)
                         (batch_dirs w) u (player w)).

(** A call into the [VLC] wrapper: its libvlc calls join the trace. *)
Definition vlc_call (f : VLC.vlc -> list VLC.cmd * VLC.vlc) : M unit :=
  fun w => let '(cs, v) := f (player w) in
           (inl tt, mkWorld (reg w) (hist w) (trace w ++ map EVlc cs) (tag w)
                            (tag_uuid w) (batch_dirs w) (prev_uuid w) v).

(** [self.con.commit()] of a new table content, recorded with its event. *)
Definition commit (r : registry) (e : event) : M unit :=
  fun w => (inl tt, mkWorld r (hist w ++ [r]) (trace w ++ [e]) (tag w)
                         (tag_uuid w) (batch_dirs w) (prev_uuid w) (player w)).

(* ---------------- Database ---------------- *)

(** SQL [uuid = :uuid]: a Python [None] binds to NULL and matches nothing. *)
Definition sql_eq (u : option string) (v : string) : bool :=
  match u with Some u => String.eqb u v | None => false end.

Fixpoint first_path (u : string) (r : registry) : option string :=
  match r with
  | [] => None
  | (v, p) :: r' => if String.eqb u v then Some p else first_path u r'
  end.

(** [Database.get_path]. *)
Definition get_path (u : option string) : M (option string) :=
  match u with
  | None => ret None
  | Some u =>
      r <- gets reg ;;
      match first_path u r with
      | None => log Warning "DB does not contain a path for this tags UUID." ;;;
                ret None
      | Some p => log Info "Found" ;;; ret (Some (PosixPath.normpath p))
      end
  end.

(** [bool(x and not x.isspace())]. *)
Definition valid_field (s : string) : bool :=
  Py.truthy s && negb (Py.isspace s).

(** [Database.create_entry]. *)
Definition create_entry (u p : string) : M unit :=
  if negb (valid_field u) || negb (valid_field p) then
    log Critical "DB entry is not valid" ;;; ret tt
  else
    r <- gets reg ;;
    commit (r ++ [(u, p)]) (EInsert u p).

(** [Database.remove_entry]. *)
Definition remove_entry (u : option string) : M unit :=
  r <- gets reg ;;
  commit (filter (fun row => negb (sql_eq u (fst row))) r) (EDelete u).

(* ---------------- NFCPlayer: provisioning ---------------- *)

Definition upper_char (c : ascii) : ascii :=
  let n := nat_of_ascii c in
  if Nat.leb 97 n && Nat.leb n 122 then ascii_of_nat (n - 32) else c.

(** [str.upper] on the ASCII range. *)
Fixpoint upper (s : string) : string :=
  match s with
  | EmptyString => EmptyString
  | String c r => String (upper_char c) (upper r)
  end.

(** [self.get_uuid_from_tag()]; [write_mode] is [self._WRITE_MODE].
    Outside write mode a tag without NDEF data falls through to
    [self.tag.Tag.ndef.octets], whose [AttributeError] is caught. *)
Definition get_uuid_from_tag (write_mode : bool) : M (option string) :=
  t <- gets tag ;;
  if negb (is_present t) then ret None
  else match ndef t with
       | None =>
           if write_mode then log Info "Tag is empty." ;;; ret None
           else log Info "Tag doesn't have a valid ID, please try another tag." ;;;
                log Info "Getting tag UUID" ;;; ret None
       | Some recs =>
           log Info "Getting tag UUID" ;;;
           match recs with
           | first :: _ => log Debug "Tag UUID" ;;; ret (Some first)
           | [] => ret None
           end
       end.

(** [while ans.upper() not in ["Y","N"]: ans = input(...)]: the operator's
    successive answers; running out of input is Python's [EOFError]. *)
Fixpoint ask (answers : list string) : M string :=
  match answers with
  | [] => raise EOFError
  | a :: rest =>
      if String.eqb (upper a) "Y" || String.eqb (upper a) "N"
      then ret (upper a) else ask rest
  end.

(** What the outside world supplies to one [read_and_assign] call. *)
Record prov_env := mkEnv {
  batch_mode : bool;        (** [self._BATCH_MODE] *)
  answers : list string;    (** lines typed at the overwrite prompt *)
  rnd : string;             (** [str(uuid.uuid4())] *)
  chosen : string;          (** the directory the selection loop accepts *)
  pulled : bool             (** the tag leaves the field during the write *)
}.

Definition minted (env : prov_env) : string := ("NFCMP_" ++ rnd env)%string.

(** [self.batch_dirs.pop()]. *)
Definition pop_batch : M string :=
  l <- gets batch_dirs ;;
  match l with
  | [] => raise IndexError
  | _ => set_batch_dirs (removelast l) ;;; ret (last l "")
  end.

(** [self.tag.Tag.ndef.records = [TextRecord(u)]]: setting the records on
    a tag without NDEF support is an [AttributeError] on [None]; a tag that
    leaves the field while the write is in progress raises
    [nfc.tag.TagCommandError]. *)
Definition write_tag (env : prov_env) (u : string) : M unit :=
  t <- gets tag ;;
  match ndef t with
  | None => raise AttributeError
  | Some _ =>
      emit (ETagWrite u) ;;;
      if pulled env then raise TagCommandError
      else set_tag (mkTag (is_present t) (Some [u]))
  end.

(** [list(message_decoder(self.tag.Tag.ndef.octets))[0].text]. *)
Definition first_record : M string :=
  t <- gets tag ;;
  match ndef t with
  | None => raise AttributeError
  | Some [] => raise IndexError
  | Some (x :: _) => ret x
  end.

Definition opt_string_eqb (a b : option string) : bool :=
  match a, b with
  | Some x, Some y => String.eqb x y
  | None, None => true
  | _, _ => false
  end.

(** [read_and_assign] from [# Try to create DB entry.] on: the commit and
    the round-trip check. *)
Definition commit_and_verify (u path : string) : M bool :=
  create_entry u path ;;;
  x <- first_record ;;
  stored <- get_path (Some u) ;;
  (if String.eqb u x && opt_string_eqb stored (Some path)
   then log Info "Succesfully added entry to DB" ;;;
        print "Succesfully assigned media to tag."
   else print "Writing failed, please try again.") ;;;
  print "Waiting for tag to be removed..." ;;;
  ret true.

(** [read_and_assign] from [# Get random UUID.] on. *)
Definition assign_new (env : prov_env) : M bool :=
  let u := minted env in
  set_tag_uuid (Some u) ;;;
  emit (EMint u) ;;;
  path <- (if batch_mode env then pop_batch
           else log Info "Prompting user to select/input media directory." ;;;
                ret (chosen env)) ;;
  write_tag env u ;;;
  commit_and_verify u path.

(** [NFCPlayer.read_and_assign] (the on-connect callback of write mode).
    [Tag(tag)] starts with [UUID = ""], overwritten at once. *)
Definition read_and_assign (env : prov_env) (t : tag_handle) : M bool :=
  print "Checking" ;;;
  log Info "Connected to tag." ;;;
  set_tag t ;;;
  set_tag_uuid (Some "") ;;;
  u <- get_uuid_from_tag true ;;
  set_tag_uuid u ;;;
  p <- get_path u ;;
  match p with
  | Some _ =>
      print "Tag is already pointing to" ;;;
      a <- ask (answers env) ;;
      if String.eqb a "N" then print "Please remove tag." ;;; ret true
      else remove_entry u ;;; assign_new env
  | None => assign_new env
  end.

Definition is_tag_command_error (e : exc) : bool :=
  match e with TagCommandError => true | _ => false end.

(** One turn of [write_loop] around [self.clf.connect(...)], with its
    [except nfc.tag.TagCommandError] handler; the exception raised in the
    on-connect callback reaches this handler. *)
Definition write_loop_turn (env : prov_env) (t : tag_handle) : M unit :=
  catch is_tag_command_error
    (read_and_assign env t ;;; ret tt)
    (fun _ =>
       u <- gets tag_uuid ;;
       remove_entry u ;;;
       log Error "NDEF write failed" ;;;
       log Error "You probably removed the tag before its UUID could be written.").

(* ---------------- NFCPlayer: standby ---------------- *)

(** The file system and the audio classifier, as the callbacks see them:
    [os.path.isfile], [os.listdir] and [self.is_audio_track] (the MIME
    based classifier, a collaborator).  [listdir] gives the names
    [os.listdir] returns on a directory it can read; [listdir_error] the
    [OSError] it raises on a path that is not a regular file
    (FileNotFoundError, PermissionError, NotADirectoryError on a special
    file, ...), [None] when it succeeds. *)
Record fs := mkFs {
  isfile : string -> bool;
  listdir : string -> list string;
  listdir_error : string -> option string;
  is_audio_track : string -> bool
}.

(** [os.listdir(p)]: a regular file raises NotADirectoryError. *)
Definition listdir_result (f : fs) (p : string) : list string + exc :=
  if isfile f p then inr (Other "NotADirectoryError")
  else match listdir_error f p with
       | Some e => inr (Other e)
       | None => inl (listdir f p)
       end.

Definition os_listdir (f : fs) (p : string) : M (list string) :=
  fun w => (listdir_result f p, w).

(** The debug line of [self.is_audio_track(file)]: one for a regular
    file, none for anything else. *)
Definition audio_track_message (f : fs) (file : string) : string :=
  if is_audio_track f file then (file ++ " is an audio track.")%string
  else (file ++ " is not an audio track.")%string.

Definition audio_track_log (f : fs) (file : string) : M unit :=
  if isfile f file then log Debug (audio_track_message f file) else ret tt.

Fixpoint audio_track_logs (f : fs) (files : list string) : M unit :=
  match files with
  | [] => ret tt
  | file :: rest => audio_track_log f file ;;; audio_track_logs f rest
  end.

(** The events [audio_track_logs] emits, and a world with events added. *)
Fixpoint audio_track_events (f : fs) (files : list string) : list event :=
  match files with
  | [] => []
  | file :: rest =>
      (if isfile f file then [ELog Debug (audio_track_message f file)] else [])
      ++ audio_track_events f rest
  end.

Definition add_events (w : world) (evs : list event) : world :=
  mkWorld (reg w) (hist w) (trace w ++ evs) (tag w) (tag_uuid w) (batch_dirs w)
          (prev_uuid w) (player w).

Fixpoint insert_sorted (x : string) (l : list string) : list string :=
  match l with
  | [] => [x]
  | y :: l' =>
      match String.compare x y with
      | Gt => y :: insert_sorted x l'
      | _ => x :: l
      end
  end.

(** [sorted(...)] on strings. *)
Definition sorted (l : list string) : list string :=
  fold_right insert_sorted [] l.

Fixpoint ends_with_slash (s : string) : bool :=
  match s with
  | EmptyString => false
  | String c EmptyString => Ascii.eqb c "/"%char
  | String _ r => ends_with_slash r
  end.

(** [os.path.join(directory, file_name)] for a relative [file_name]. *)
Definition path_join (a b : string) : string :=
  if String.eqb a "" || ends_with_slash a then (a ++ b)%string
  else (a ++ "/" ++ b)%string.

(** [NFCPlayer.add_media_to_playlist]. *)
Definition add_media_to_playlist (f : fs) (directory : string) : M unit :=
  if isfile f directory then
    vlc_call (fun v => VLC.add_track_mrls v (VLC.PyStr directory))
  else
    names <- os_listdir f directory ;;
    let files := map (path_join directory) (sorted names) in
    (* the loop only appends to [track_list]: its trace is the debug lines
       of [is_audio_track], file by file, and its result the files that
       pass *)
    audio_track_logs f files ;;;
    let track_list := filter (is_audio_track f) files in
    vlc_call (fun v => VLC.add_track_mrls v (VLC.PyList track_list)) ;;;
    log Info "Added songs to playlist".

(** [self.VLC.play()]. *)
Definition vlc_play (obs : VLC.oracle) : M unit :=
  fun w =>
    let '(cs, e) := VLC.play (player w) obs in
    let w' := mkWorld (reg w) (hist w) (trace w ++ map EVlc cs) (tag w)
                      (tag_uuid w) (batch_dirs w) (prev_uuid w) (player w) in
    match e with
    | None => (inl tt, w')
    | Some m => (inr (Other m), w')
    end.

(** [NFCPlayer.read_and_play] (the on-connect callback of standby mode);
    [self.tag = None] on the early returns clears [self.tag.UUID]. *)
Definition read_and_play (f : fs) (obs : VLC.oracle) (t : tag_handle) : M bool :=
  log Info "Connected to tag." ;;;
  set_tag t ;;;
  set_tag_uuid (Some "") ;;;
  u <- get_uuid_from_tag false ;;
  set_tag_uuid u ;;;
  match u with
  | None => set_tag_uuid None ;;; print "Tag is empty." ;;; ret true
  | Some _ =>
      p <- get_path u ;;
      match p with
      | None => set_tag_uuid None ;;;
                print "Tag has no media folder assigned to it." ;;; ret true
      | Some path =>
          prev <- gets prev_uuid ;;
          (if negb (opt_string_eqb u prev)
           then add_media_to_playlist f path ;;; set_prev_uuid u
           else ret tt) ;;;
          vlc_play obs ;;;
          ret true
      end
  end.

(* ---------------- Registry operation sequences ---------------- *)

(** Calls a client makes on the [Database] object. *)
Inductive db_op :=
| OpInsert (u p : string)   (** [create_entry(u, p)] *)
| OpDelete (u : string).    (** [remove_entry(u)] *)

Definition run_op (o : db_op) : M unit :=
  match o with
  | OpInsert u p => create_entry u p
  | OpDelete u => remove_entry (Some u)
  end.

Fixpoint run_db (ops : list db_op) : M unit :=
  match ops with
  | [] => ret tt
  | o :: ops' => run_op o ;;; run_db ops'
  end.

(** The rows of a table carrying identifier [u]. *)
Definition rows_for (u : string) (r : registry) : list row :=
  filter (fun x => String.eqb u (fst x)) r.

(** The events a run added to the trace. *)
Definition new_events (w w' : world) : list event :=
  skipn (length (trace w)) (trace w').

Definition is_set_media_list (e : event) : bool :=
  match e with EVlc (VLC.SetMediaList _) => true | _ => false end.

Definition is_db_event (e : event) : bool :=
  match e with EDelete _ | EInsert _ _ => true | _ => false end.

Definition is_vlc (e : event) : bool :=
  match e with EVlc _ => true | _ => false end.

(** The table after one operation, as a function of the table before. *)
Definition apply_op (r : registry) (o : db_op) : registry :=
  match o with
  | OpInsert u p => if valid_field u && valid_field p then r ++ [(u, p)] else r
  | OpDelete u => filter (fun x => negb (sql_eq (Some u) (fst x))) r
  end.

(** At most one row per identifier. *)
Definition at_most_one (r : registry) : Prop :=
  forall u, length (rows_for u r) <= 1.

(** Every insert of [ops] uses an identifier with no row at that point. *)
Fixpoint fresh_inserts (r : registry) (ops : list db_op) : Prop :=
  match ops with
  | [] => True
  | o :: ops' =>
      match o with
      | OpInsert u _ => rows_for u r = []
      | OpDelete _ => True
      end /\ fresh_inserts (apply_op r o) ops'
  end.

(** The answer the prompt loop of [read_and_assign] settles on: the first
    line whose upper case is "Y" or "N", or [EOFError]. *)
Fixpoint ask_result (answers : list string) : string + exc :=
  match answers with
  | [] => inr EOFError
  | a :: rest =>
      if String.eqb (upper a) "Y" || String.eqb (upper a) "N"
      then inl (upper a) else ask_result rest
  end.

(** [e1] occurs in [l] with [e2] somewhere after it. *)
Fixpoint precedes (e1 e2 : event) (l : list event) : Prop :=
  match l with
  | [] => False
  | x :: l' => (x = e1 /\ In e2 l') \/ precedes e1 e2 l'
  end.

(** The table contents a run committed, oldest first. *)
Definition new_hist (w w' : world) : list registry :=
  skipn (length (hist w)) (hist w').

End Prov.


(* ------------------------------------------------------------------ *)
(** ** Concrete inputs *)

Module Fixtures.
Import Prov.

Definition w0 : world :=
  mkWorld [("NFCMP_old", "/music/albumA")] [] []
          (mkTag true None) None [] None (VLC.mkVLC [] []).

(** A no-break space (U+00A0), UTF-8 encoded: whitespace for [str.isspace]. *)
Definition nbsp : string := String "194"%char (String "160"%char EmptyString).

Definition blank_tag : tag_handle := mkTag true (Some []).
Definition old_tag : tag_handle := mkTag true (Some ["NFCMP_old"]).

Definition env_ok : prov_env := mkEnv false ["maybe"; "y"] "1234" "/music/albumB" false.
Definition env_pull : prov_env := mkEnv false ["y"] "1234" "/music/albumB" true.

Definition obs_never_playing : VLC.oracle := fun n => if Nat.even n then VLC.Stopped else VLC.Opening.


(** The table of a first run. *)
Definition w_empty : Prov.world :=
  Prov.mkWorld [] [] [] (Prov.mkTag false None) None [] None (VLC.mkVLC [] []).

(** Standby: the last rebuild was for "A"; nothing is registered. *)
Definition w_prev_A : Prov.world :=
  Prov.mkWorld [] [] [] (Prov.mkTag false None) None [] (Some "A")
               (VLC.mkVLC ["/music/albumA/1.mp3"] ["/music/albumA/1.mp3"]).

Definition tag_B : Prov.tag_handle := Prov.mkTag true (Some ["B"]).

(** Standby: "A" is registered to a directory with one audio file. *)
Definition w_reg_A : Prov.world :=
  Prov.mkWorld [("A", "/music/albumA")] [] [] (Prov.mkTag false None) None []
               None (VLC.mkVLC [] []).

Definition tag_A : Prov.tag_handle := Prov.mkTag true (Some ["A"]).

Definition fs_album : Prov.fs :=
  Prov.mkFs (fun p => String.eqb p "/music/albumA/1.mp3")
            (fun d => if String.eqb d "/music/albumA" then ["1.mp3"; "cover.jpg"] else [])
            (fun d => if String.eqb d "/music/albumA" then None else Some "FileNotFoundError")
            (fun p => String.eqb p "/music/albumA/1.mp3").

End Fixtures.

(* ------------------------------------------------------------------ *)
(** ** More of [os.path] and [str] *)

Module PathOps.

Definition str_rev (s : string) : string :=
  string_of_list_ascii (rev (list_ascii_of_string s)).

Fixpoint lstrip_by (p : ascii -> bool) (s : string) : string :=
  match s with
  | EmptyString => EmptyString
  | String c r => if p c then lstrip_by p r else s
  end.

Definition rstrip_by (p : ascii -> bool) (s : string) : string :=
  str_rev (lstrip_by p (str_rev s)).

Definition strip_by (p : ascii -> bool) (s : string) : string :=
  rstrip_by p (lstrip_by p s).

(** [s.strip()]. *)
Definition strip (s : string) : string := strip_by Py.is_space_char s.

(** [s.strip(c)] and [s.rstrip(c)] for one character [c]. *)
Definition strip_char (c : ascii) (s : string) : string := strip_by (Ascii.eqb c) s.
Definition rstrip_char (c : ascii) (s : string) : string := rstrip_by (Ascii.eqb c) s.

(** [s.rfind(c)]; [None] is Python's [-1]. *)
Fixpoint rfind_from (c : ascii) (s : string) (i : nat) (acc : option nat) : option nat :=
  match s with
  | EmptyString => acc
  | String d r => rfind_from c r (S i) (if Ascii.eqb d c then Some i else acc)
  end.

Definition rfind (c : ascii) (s : string) : option nat := rfind_from c s 0 None.

(** [s.find(c, start)]; [None] is Python's [-1]. *)
Definition find_from (c : ascii) (s : string) (start : nat) : option nat :=
  let fix go (t : string) (i : nat) : option nat :=
    match t with
    | EmptyString => None
    | String d r => if (start <=? i) && Ascii.eqb d c then Some i else go r (S i)
    end in
  go s 0.

(** [s[i:j]] for [i <= j]. *)
Definition slice (s : string) (i j : nat) : string := substring i (j - i) s.

(** Python's [i > j] where [None] stands for [-1]. *)
Definition index_gt (i j : option nat) : bool :=
  match i, j with
  | Some i, Some j => j <? i
  | Some _, None => true
  | None, _ => false
  end.

(** The leading-dots loop of [genericpath._splitext]: [true] when some
    [p[k]] with [start <= k < dot] is not a dot ([fuel] bounds the loop,
    which runs at most [dot - start] times). *)
Fixpoint non_dot_before (p : string) (k dot fuel : nat) : bool :=
  match fuel with
  | 0 => false
  | S fuel' =>
      if k <? dot then
        if negb (String.eqb (slice p k (S k)) ".") then true
        else non_dot_before p (S k) dot fuel'
      else false
  end.

(** [os.path.splitext] (posixpath: [sep = '/'], [extsep = '.']). *)
Definition splitext (p : string) : string * string :=
  let sepIndex := rfind "/"%char p in
  let dotIndex := rfind "."%char p in
  match dotIndex with
  | Some dot =>
      if index_gt dotIndex sepIndex then
        let filenameIndex := match sepIndex with Some s => S s | None => 0 end in
        if non_dot_before p filenameIndex dot (String.length p)
        then (slice p 0 dot, slice p dot (String.length p))
        else (p, "")
      else (p, "")
  | None => (p, "")
  end.

(** [os.path.expanduser] (posixpath).  [home] is [$HOME], or the home
    directory of the current user when [HOME] is unset ([None]: neither
    is known, a [KeyError] that returns the path unchanged); [pw_dir name]
    is the home directory [pwd.getpwnam(name)] gives. *)
Definition expanduser (home : option string) (pw_dir : string -> option string)
           (path : string) : string :=
  if negb (Py.starts_with "~" path) then path
  else
    let i := match find_from "/"%char path 1 with
             | Some i => i
             | None => String.length path
             end in
    let userhome := if i =? 1 then home else pw_dir (slice path 1 i) in
    match userhome with
    | None => path
    | Some uh =>
        let r := (rstrip_char "/"%char uh ++ slice path i (String.length path))%string in
        if String.eqb r "" then "/" else r
    end.

End PathOps.

(* ------------------------------------------------------------------ *)
(** ** More of [NFCPlayer]: media files, path checks, batch file,
    directory prompt, start-up and [main] *)

Module Player.
Import Prov.

(** [NFCPlayer.is_playlist]. *)
Definition is_playlist (file : string) : bool :=
  let ext := snd (PathOps.splitext file) in
  existsb (String.eqb (upper ext)) [".M3U"; ".ASX"; ".XSPF"; ".B4S"; ".CUE"].

(** [NFCPlayer.is_audio_track]: [Some true] is [True], [None] the implicit
    [return None]; [guess_type] is [mimetypes.guess_type(file)[0]].  Its
    value; the debug line it logs for a regular file is
    [Prov.audio_track_log], emitted where the callers call it. *)
Definition is_audio_track (isfile : string -> bool) (guess_type : string -> option string)
           (file : string) : option bool :=
  if isfile file then
    match guess_type file with
    | Some mime_type =>
        if negb (is_playlist file) && Py.starts_with "audio" mime_type
        then Some true else None
    | None => None
    end
  else None.

(** The file system the callbacks see when [self.is_audio_track] is the
    method above: [if self.is_audio_track(file)] tests its truthiness. *)
Definition mime_fs (isfile : string -> bool) (listdir : string -> list string)
           (listdir_error : string -> option string)
           (guess_type : string -> option string) : fs :=
  mkFs isfile listdir listdir_error
       (fun p => match is_audio_track isfile guess_type p with
                 | Some true => true
                 | _ => false
                 end).

(** The counting loop of [check_if_directory_contains_media] over the
    names [os.listdir(path)] returned. *)
Definition count_tracks (f : fs) (path : string) (names : list string) : nat :=
  fold_left (fun tracks file_name =>
               if Prov.is_audio_track f (path_join path file_name) then S tracks else tracks)
            (sorted names) 0.

(** [NFCPlayer.check_if_directory_contains_media]; [path_exists] is
    [os.path.exists], [check_mode] is [self._CHECK_MODE].  The loop logs
    the debug lines of [is_audio_track] (it only counts besides). *)
Definition check_if_directory_contains_media (f : fs) (path_exists : string -> bool)
           (check_mode : bool) (path : option string) : M bool :=
  match path with
  | None => ret false
  | Some path =>
      if negb (path_exists path) then
        (if negb check_mode then log Warning "Not a valid path." else ret tt) ;;;
        ret false
      else
        names <- os_listdir f path ;;
        audio_track_logs f (map (path_join path) (sorted names)) ;;;
        let tracks := count_tracks f path names in
        if 0 <? tracks then
          (if negb check_mode then print "Found tracks in directory" else ret tt) ;;;
          ret true
        else
          (if negb check_mode then log Warning "No tracks found in directory."
           else ret tt) ;;;
          ret false
  end.

(** [Database.get_all_paths]: [SELECT path FROM music], rowid order. *)
Definition get_all_paths : M (list string) :=
  r <- gets reg ;;
  ret (map snd r).

(** The [for path in paths] loop of [check_paths]. *)
Fixpoint check_each (f : fs) (path_exists : string -> bool) (check_mode : bool)
         (paths : list string) : M unit :=
  match paths with
  | [] => ret tt
  | p :: ps =>
      b <- check_if_directory_contains_media f path_exists check_mode (Some p) ;;
      (if negb b then print p else ret tt) ;;;
      check_each f path_exists check_mode ps
  end.

(** [NFCPlayer.check_paths]. *)
Definition check_paths (f : fs) (path_exists : string -> bool) (check_mode : bool) : M unit :=
  paths <- get_all_paths ;;
  check_each f path_exists check_mode paths.

(** What the operating system answers at start-up. *)
Record os_env := mkOs {
  home : option string;                    (** for [expanduser("~...")] *)
  pw_dir : string -> option string;
  realpath : string -> string;             (** [os.path.realpath] *)
  read_file : string -> option (list string);
      (** the lines [for line in f] yields, [None] when [open] fails *)
  path_exists : string -> bool             (** [os.path.exists] *)
}.




Definition newline : string := String (ascii_of_nat 10) "".

(** The [input("Input path to media: ")] loop of [select_media_directory]
    outside GUI mode; [input] raises [EOFError] once the input is exhausted. *)
Fixpoint read_directory (inputs : list string) : string + exc :=
  match inputs with
  | [] => inr EOFError
  | directory :: rest =>
      if String.eqb directory newline || String.eqb directory ""
      then read_directory rest else inl directory
  end.

(** [NFCPlayer.select_media_directory] with [self._GUI_MODE] false (the
    tkinter dialog branch is not modelled; the debug log is left out). *)
Definition select_media_directory (o : os_env) (inputs : list string) : string + exc :=
  match read_directory inputs with
  | inl directory =>
      inl (PosixPath.normpath
             (PathOps.expanduser (home o) (pw_dir o)
                (PathOps.strip_char "'"%char (PathOps.strip directory))))
  | inr e => inr e
  end.

(** The reader-opening loop of [NFCPlayer.__init__]: [opens k] is what the
    [k]-th call of [self.clf.open(location)] returns (counting from 0).
    The result is [attempt] and [tries]; [tries + 1] calls were made. *)
Fixpoint open_loop (opens : nat -> bool) (attempt : bool) (tries fuel : nat) : bool * nat :=
  match fuel with
  | 0 => (attempt, tries)
  | S fuel' =>
      if negb attempt && (tries <? 6)
      then open_loop opens (opens (S tries)) (S tries) fuel'
      else (attempt, tries)
  end.

Definition open_reader (opens : nat -> bool) : bool * nat :=
  open_loop opens (opens 0) 0 6.

(** The command-line arguments [__init__] and [main] read. *)
Record args := mkArgs {
  terminal_only : bool;
  write_mode_arg : bool;
  batch_mode_dir : option string;
  check_paths_arg : bool
}.

(** The attributes of [NFCPlayer] once [__init__] returns. *)
Record config := mkConfig {
  gui_mode : option bool;   (** [self._GUI_MODE] *)
  write_mode : bool;        (** [self._WRITE_MODE] *)
  batch_mode : bool;        (** [self._BATCH_MODE] *)
  check_mode : bool;        (** [self._CHECK_MODE] *)
  reader_open : bool;       (** [self.clf] opened and kept *)
  open_calls : nat;         (** calls of [self.clf.open] *)
  halt : bool               (** [self.halt] *)
}.

(** [NFCPlayer.set_app_display_mode]; [display] is ['DISPLAY' in os.environ]. *)
Definition set_app_display_mode (display : bool) (gui : option bool) : option bool :=
  match gui with
  | Some false => Some false
  | None => Some display
  | Some true => Some true
  end.

(** [NFCPlayer.__init__]: [loaded] is [self.batch_dirs] after
    [load_batch_directories_file], [opens] the answers of
    [self.clf.open]; the VLC, event and database set-up is left out. *)
Definition init (a : args) (loaded : list string) (opens : nat -> bool) (display : bool)
  : config :=
  let gui := Some (negb (terminal_only a)) in
  match batch_mode_dir a with
  | Some _ =>
      match loaded with
      | [] => mkConfig gui true true false false 0 true
      | _ =>
          let cm := check_paths_arg a in
          if negb cm then
            let '(attempt, tries) := open_reader opens in
            if negb attempt then mkConfig gui true true cm false (S tries) true
            else mkConfig (set_app_display_mode display gui) true true cm true (S tries) false
          else mkConfig (set_app_display_mode display gui) true true cm false 0 false
      end
  | None =>
      let wm := write_mode_arg a in
      let cm := check_paths_arg a in
      if negb cm then
        let '(attempt, tries) := open_reader opens in
        if negb attempt then mkConfig gui wm false cm false (S tries) true
        else mkConfig (set_app_display_mode display gui) wm false cm true (S tries) false
      else mkConfig (set_app_display_mode display gui) wm false cm false 0 false
  end.

(** What [main] runs after [NFCPlayer(vars(args))]. *)
Inductive run := Idle | WriteLoop | CheckPaths | PlayLoop.

Definition main_run (a : args) (c : config) : run :=
  if halt c then Idle
  else if write_mode_arg a || match batch_mode_dir a with Some _ => true | None => false end
  then WriteLoop
  else if check_paths_arg a then CheckPaths
  else PlayLoop.

End Player.

(* ------------------------------------------------------------------ *)
(** ** Vocabulary for the properties of the player code *)

Module PlayerProps.
Import Prov.

(** The order [sorted] produces: [String.compare] never answers [Gt]. *)
Definition str_le (a b : string) : Prop := String.compare a b <> Gt.

(** Some entry of directory [d] is an audio track. *)
Definition has_media (f : fs) (d : string) : bool :=
  existsb (fun n => Prov.is_audio_track f (path_join d n)) (listdir f d).

(** [os.listdir(p)] returns normally. *)
Definition listable (f : fs) (p : string) : bool :=
  match listdir_result f p with inl _ => true | inr _ => false end.

(** The messages of the [print] calls among some events. *)
Definition printed (evs : list event) : list string :=
  flat_map (fun e => match e with EPrint m => [m] | _ => [] end) evs.

(** A printed message or a debug log line. *)
Definition print_or_debug (e : event) : bool :=
  match e with EPrint _ | ELog Debug _ => true | _ => false end.


(** An input line [select_media_directory] skips. *)
Definition blank (s : string) : Prop := s = "" \/ s = Player.newline.

End PlayerProps.

(** Concrete file systems, environments and worlds for sample runs of
    the player code. *)
Module PlayerFixtures.
Import Prov.

(** ["/m"] holds an MP3 file, an M3U playlist and a text file. *)
Definition isf_m (p : string) : bool :=
  String.eqb p "/m/a.mp3" || String.eqb p "/m/b.M3U" || String.eqb p "/m/c.txt".
Definition ls_m (d : string) : list string :=
  if String.eqb d "/m" then ["b.M3U"; "a.mp3"; "c.txt"] else [].
Definition guess_m (p : string) : option string :=
  if String.eqb p "/m/a.mp3" then Some "audio/mpeg"
  else if String.eqb p "/m/b.M3U" then Some "audio/x-mpegurl"
  else if String.eqb p "/m/c.txt" then Some "text/plain"
  else None.
(** ["/m"] and ["/empty"] can be listed, ["/locked"] cannot be read, and
    nothing else exists. *)
Definition lerr_m (d : string) : option string :=
  if String.eqb d "/m" || String.eqb d "/empty" then None
  else if String.eqb d "/locked" then Some "PermissionError"
  else Some "FileNotFoundError".
Definition fs_m : fs := Player.mime_fs isf_m ls_m lerr_m guess_m.

(** Existing paths: ["/m"], its files, the empty directory ["/empty"] and
    the unreadable directory ["/locked"]. *)
Definition ex_m (p : string) : bool :=
  String.eqb p "/m" || isf_m p || String.eqb p "/empty" || String.eqb p "/locked".

(** A table with a directory of music, a vanished path and an empty directory. *)
Definition w_paths : world :=
  mkWorld [("A", "/m"); ("B", "/gone"); ("C", "/empty")] [] [] (mkTag false None) None []
          None (VLC.mkVLC [] []).

(** The same table with a file registered as a directory. *)
Definition w_file_path : world :=
  mkWorld [("A", "/m"); ("D", "/m/a.mp3")] [] [] (mkTag false None) None []
          None (VLC.mkVLC [] []).

(** An unreadable directory registered before a file. *)
Definition w_locked : world :=
  mkWorld [("A", "/m"); ("L", "/locked"); ("D", "/m/a.mp3")] [] [] (mkTag false None) None []
          None (VLC.mkVLC [] []).


(** Batch mode with two directories left; the tag is pulled during the write. *)
Definition env_batch_pull : prov_env := mkEnv true [] "1234" "" true.
Definition w_batch : world :=
  mkWorld [] [] [] (mkTag false None) None ["/music/a"; "/music/b"] None (VLC.mkVLC [] []).

(** The operator declines the overwrite after one invalid answer. *)
Definition env_decline : prov_env := mkEnv false ["maybe"; "n"] "1234" "/music/albumB" false.

(** [-w -c] without a batch file. *)
Definition args_write_check : Player.args := Player.mkArgs false true None true.

End PlayerFixtures.

(* ------------------------------------------------------------------ *)
(** ** Facts about the [VLC] wrapper *)

Module VLCFacts.
Import VLC.

Lemma vstate_eqb_false (a b : vstate) : a <> b -> vstate_eqb a b = false.
Proof. destruct a, b; simpl; congruence. Qed.

Lemma vstate_eqb_true (a b : vstate) : vstate_eqb a b = true -> a = b.
Proof. destruct a, b; simpl; congruence. Qed.

(** With the desired state never reported, the loop runs to its bound. *)
Lemma action_timeout_never (a : cmd) (d : vstate) (obs : oracle) :
  (forall n, obs n <> d) ->
  action_timeout a d 3 obs = (attempts a 6, Some (timeout_message d)).
Proof.
  intros H.
  assert (H' : forall n, vstate_eqb (obs n) d = false)
    by (intro n; apply vstate_eqb_false, H).
  unfold action_timeout; simpl.
  rewrite !H'; reflexivity.
Qed.

Lemma action_loop_cmds (a : cmd) (d : vstate) (obs : oracle) (limit : nat) :
  forall fuel wait c,
    In c (fst (action_loop a d obs limit fuel wait)) -> c = a \/ c = Sleep.
Proof.
  induction fuel as [|fuel IH]; intros wait c Hin; simpl in Hin.
  - contradiction.
  - destruct (negb (vstate_eqb (obs wait) d) && (wait <? limit)).
    + destruct (action_loop a d obs limit fuel (S wait)) as [cs w] eqn:E.
      simpl in Hin.
      destruct Hin as [<- | [<- | Hin]]; auto.
      apply (IH (S wait)); rewrite E; exact Hin.
    + contradiction.
Qed.

Lemma action_timeout_cmds (a : cmd) (d : vstate) (t : nat) (obs : oracle) c :
  In c (fst (action_timeout a d t obs)) -> c = a \/ c = Sleep.
Proof.
  unfold action_timeout.
  destruct (action_loop a d obs (2 * t) (2 * t) 0) as [cs w] eqn:E.
  intros Hin.
  assert (Hcs : In c cs) by (destruct (2 * t <=? w); exact Hin).
  apply (action_loop_cmds a d obs (2 * t) (2 * t) 0).
  rewrite E; exact Hcs.
Qed.

(** [play] lets no exception escape. *)
Lemma play_no_exception (v : vlc) (obs : oracle) : snd (play v obs) = None.
Proof.
  unfold play, guarded.
  destruct (0 <? length (media_list v)); [|reflexivity].
  destruct (action_timeout ListPlay Playing 3 obs) as [cs [m|]]; reflexivity.
Qed.

(** [play] never touches the playlist. *)
Lemma play_cmds (v : vlc) (obs : oracle) c :
  In c (fst (play v obs)) ->
  c = ListPlay \/ c = Sleep \/ c = PlayerStop \/ (exists m, c = LogInfo m)
  \/ (exists m, c = LogWarning m).
Proof.
  unfold play, guarded.
  destruct (0 <? length (media_list v)).
  - destruct (action_timeout ListPlay Playing 3 obs) as [cs [m|]] eqn:E;
      simpl; intros Hin; apply in_app_or in Hin;
      (destruct Hin as [Hin|Hin];
       [ assert (Hc : In c (fst (action_timeout ListPlay Playing 3 obs)))
           by (rewrite E; exact Hin);
         apply action_timeout_cmds in Hc; tauto
       | simpl in Hin; intuition (subst; eauto 7) ]).
  - simpl; intros [<- | []]; eauto 6.
Qed.

End VLCFacts.

(* ------------------------------------------------------------------ *)
(** ** The Playback Controller *)

(** C3 (corrected).  The calls guarded by [__action_timeout] are [play] on
    a non-empty playlist, [pause] while the engine reports Playing, and
    [stop].  For each of them, when the desired state is never reported,
    the command is issued exactly 6 times, each followed by a 0.5 s sleep;
    the timeout is then caught inside the call, a warning is logged, the
    MediaPlayer is hard-stopped, and the call returns without exception. *)
Theorem retry_ceiling_guarded_calls (c : VLC.call) (v : VLC.vlc) (obs : VLC.oracle) :
  VLC.guard c v obs ->
  (forall n, obs n <> VLC.desired c) ->
  VLC.run_call c v obs
  = (VLC.attempts (VLC.command c) 6
       ++ [VLC.LogWarning (VLC.failure_warning c); VLC.PlayerStop], None).
Proof.
  intros Hg Hnever.
  destruct c; simpl in Hg, Hnever |- *.
  - unfold VLC.play, VLC.guarded.
    replace (0 <? length (VLC.media_list v)) with true
      by (symmetry; apply Nat.ltb_lt; exact Hg).
    rewrite (VLCFacts.action_timeout_never _ _ _ Hnever); reflexivity.
  - unfold VLC.pause, VLC.guarded.
    rewrite Hg; simpl.
    rewrite (VLCFacts.action_timeout_never _ _ _ Hnever); reflexivity.
  - unfold VLC.stop, VLC.guarded.
    rewrite (VLCFacts.action_timeout_never _ _ _ Hnever); reflexivity.
Qed.

Lemma retry_ceiling_guarded_calls_witness :
  0 < length (VLC.media_list (VLC.mkVLC ["a.mp3"] ["a.mp3"]))
  /\ VLC.run_call VLC.CPlay (VLC.mkVLC ["a.mp3"] ["a.mp3"]) Fixtures.obs_never_playing
     = (VLC.attempts VLC.ListPlay 6
          ++ [VLC.LogWarning "Failed to play media player."; VLC.PlayerStop], None).
Proof.
  split.
  - simpl; lia.
  - apply (retry_ceiling_guarded_calls VLC.CPlay).
    + simpl; lia.
    + intros n; unfold Fixtures.obs_never_playing; destruct (Nat.even n); discriminate.
Defined.

(** C3: [play] on an empty playlist, with an engine that never reports
    Playing, makes no attempt, reports no timeout and does no hard stop. *)
Lemma retry_ceiling_empty_playlist_cex :
  VLC.play (VLC.mkVLC [] []) (fun _ => VLC.Stopped)
  = ([VLC.LogInfo "Can't play, no media in playlist."], None)
  /\ ~ In VLC.ListPlay (fst (VLC.play (VLC.mkVLC [] []) (fun _ => VLC.Stopped)))
  /\ ~ In VLC.PlayerStop (fst (VLC.play (VLC.mkVLC [] []) (fun _ => VLC.Stopped))).
Proof.
  repeat split; simpl; intuition discriminate.
Qed.

(** C8.  [add_track_mrls] (the playlist replacement) stops the player,
    starts from a fresh empty [MediaList], adds the given tracks in order
    and hands that list to the player: afterwards both the wrapper's list
    and the player's list are exactly the given tracks, whatever they held
    before. *)
Theorem replace_playlist_exact (v : VLC.vlc) (tracks : list string) :
  VLC.add_track_mrls v (VLC.PyList tracks)
  = (VLC.ListStop :: map VLC.MediaNew tracks
       ++ [VLC.SetMediaList tracks; VLC.SetPlaybackModeDefault],
     VLC.mkVLC tracks tracks).
Proof. reflexivity. Qed.

(** C10.  [play] on an empty playlist issues no engine command, lets no
    exception escape and returns after logging. *)
Theorem play_empty_playlist (v : VLC.vlc) (obs : VLC.oracle) :
  VLC.media_list v = [] ->
  VLC.play v obs = ([VLC.LogInfo "Can't play, no media in playlist."], None).
Proof.
  intros H; unfold VLC.play; rewrite H; reflexivity.
Qed.

Lemma play_empty_playlist_witness :
  VLC.media_list (VLC.mkVLC [] ["old.mp3"]) = []
  /\ VLC.play (VLC.mkVLC [] ["old.mp3"]) (fun _ => VLC.Playing)
     = ([VLC.LogInfo "Can't play, no media in playlist."], None).
Proof.
  split; [reflexivity | apply play_empty_playlist; reflexivity].
Defined.



(* ------------------------------------------------------------------ *)
(** ** The Tag Registry *)

Module RegistryFacts.
Import Prov.

Lemma run_op_spec (o : db_op) (w : world) :
  fst (run_op o w) = inl tt /\ reg (snd (run_op o w)) = apply_op (reg w) o.
Proof.
  destruct o as [u p | u]; simpl.
  - unfold create_entry.
    destruct (valid_field u), (valid_field p); simpl; auto.
  - auto.
Qed.

Lemma run_db_spec (ops : list db_op) : forall w,
  fst (run_db ops w) = inl tt
  /\ reg (snd (run_db ops w)) = fold_left apply_op ops (reg w).
Proof.
  induction ops as [|o ops IH]; intros w; simpl; [auto|].
  unfold bind.
  destruct (run_op o w) as [res w1] eqn:E.
  pose proof (run_op_spec o w) as [H1 H2]; rewrite E in H1, H2; simpl in H1, H2.
  subst res; rewrite <- H2; apply IH.
Qed.

Lemma rows_for_app (u : string) (r1 r2 : registry) :
  rows_for u (r1 ++ r2) = rows_for u r1 ++ rows_for u r2.
Proof. unfold rows_for; apply filter_app. Qed.

Lemma rows_for_delete (u v : string) (r : registry) :
  rows_for v (filter (fun x => negb (sql_eq (Some u) (fst x))) r)
  = if String.eqb v u then [] else rows_for v r.
Proof.
  unfold rows_for.
  induction r as [|[a b] r IH]; cbn [filter].
  - destruct (String.eqb v u); reflexivity.
  - change (sql_eq (Some u) (fst (a, b))) with (String.eqb u a).
    change (fst (a, b)) with a.
    destruct (String.eqb u a) eqn:Eua; cbn [negb].
    + apply String.eqb_eq in Eua; subst a.
      rewrite IH.
      destruct (String.eqb v u); reflexivity.
    + cbn [filter]; change (fst (a, b)) with a.
      rewrite IH.
      destruct (String.eqb v a) eqn:Eva.
      * apply String.eqb_eq in Eva; subst a.
        rewrite String.eqb_sym, Eua; reflexivity.
      * destruct (String.eqb v u); reflexivity.
Qed.

Lemma rows_for_nil_first_path (u : string) (r : registry) :
  rows_for u r = [] -> first_path u r = None.
Proof.
  induction r as [|[a b] r IH]; simpl; [auto|].
  unfold rows_for; simpl.
  destruct (String.eqb u a); simpl; [discriminate|exact IH].
Qed.

Lemma first_path_app_some (u p0 : string) (r l : registry) :
  first_path u r = Some p0 -> first_path u (r ++ l) = Some p0.
Proof.
  induction r as [|[v q] r IH]; simpl; [discriminate|].
  destruct (String.eqb u v); auto.
Qed.

Lemma first_path_app_fresh (u p : string) (r : registry) :
  first_path u r = None -> first_path u (r ++ [(u, p)]) = Some p.
Proof.
  induction r as [|[a b] r IH]; simpl.
  - rewrite String.eqb_refl; reflexivity.
  - destruct (String.eqb u a); [discriminate|exact IH].
Qed.

Lemma apply_op_at_most_one (r : registry) (o : db_op) :
  at_most_one r ->
  match o with OpInsert u _ => rows_for u r = [] | OpDelete _ => True end ->
  at_most_one (apply_op r o).
Proof.
  intros Hr Hf v.
  destruct o as [u p | u]; cbn [apply_op].
  - destruct (valid_field u && valid_field p); [|apply Hr].
    rewrite rows_for_app, length_app.
    unfold rows_for at 2; simpl.
    destruct (String.eqb v u) eqn:E; simpl.
    + apply String.eqb_eq in E; subst v; rewrite Hf; simpl; lia.
    + pose proof (Hr v); lia.
  - rewrite rows_for_delete.
    destruct (String.eqb v u); simpl; [lia | apply Hr].
Qed.

Lemma fold_at_most_one (ops : list db_op) : forall r,
  at_most_one r -> fresh_inserts r ops -> at_most_one (fold_left apply_op ops r).
Proof.
  induction ops as [|o ops IH]; intros r Hr Hf; simpl in *; [exact Hr|].
  destruct Hf as [Ho Hf].
  apply IH; [apply apply_op_at_most_one|]; assumption.
Qed.

Lemma fold_no_insert_first_path (u : string) (ops : list db_op) : forall r,
  rows_for u r = [] ->
  (forall p, ~ In (OpInsert u p) ops) ->
  rows_for u (fold_left apply_op ops r) = [].
Proof.
  induction ops as [|o ops IH]; intros r Hr Hno; simpl; [exact Hr|].
  apply IH.
  - destruct o as [v p | v]; cbn [apply_op].
    + destruct (valid_field v && valid_field p); [|exact Hr].
      rewrite rows_for_app, Hr; unfold rows_for; simpl.
      destruct (String.eqb u v) eqn:E; [|reflexivity].
      apply String.eqb_eq in E; subst v.
      exfalso; apply (Hno p); left; reflexivity.
    + rewrite rows_for_delete; destruct (String.eqb u v); [reflexivity|exact Hr].
  - intros p Hin; apply (Hno p); right; exact Hin.
Qed.

Lemma first_path_rows (u p : string) (r : registry) :
  first_path u r = Some p -> rows_for u r <> [].
Proof.
  induction r as [|[a b] r IH]; simpl; [discriminate|].
  unfold rows_for; simpl.
  destruct (String.eqb u a); simpl; [discriminate|exact IH].
Qed.

End RegistryFacts.

(** C5 (corrected).  [create_entry] with an empty or whitespace-only
    identifier or path creates no row (and records no commit); it logs a
    critical message and returns normally, with the same result as an
    accepted insert: no error kind reaches the caller. *)
Theorem insert_blank_no_row (u p : string) (w : Prov.world) :
  Prov.valid_field u = false \/ Prov.valid_field p = false ->
  fst (Prov.create_entry u p w) = inl tt
  /\ Prov.reg (snd (Prov.create_entry u p w)) = Prov.reg w
  /\ Prov.hist (snd (Prov.create_entry u p w)) = Prov.hist w
  /\ Prov.trace (snd (Prov.create_entry u p w))
     = Prov.trace w ++ [Prov.ELog Prov.Critical "DB entry is not valid"].
Proof.
  intros H; unfold Prov.create_entry.
  destruct H as [H|H]; rewrite H; simpl;
    [| rewrite orb_true_r]; simpl; auto.
Qed.

Lemma insert_blank_no_row_witness :
  (Prov.valid_field "   " = false \/ Prov.valid_field "/music/albumA" = false)
  /\ fst (Prov.create_entry "   " "/music/albumA" Fixtures.w0) = inl tt
  /\ Prov.reg (snd (Prov.create_entry "   " "/music/albumA" Fixtures.w0))
     = Prov.reg Fixtures.w0
  /\ Prov.hist (snd (Prov.create_entry "   " "/music/albumA" Fixtures.w0))
     = Prov.hist Fixtures.w0
  /\ Prov.trace (snd (Prov.create_entry "   " "/music/albumA" Fixtures.w0))
     = Prov.trace Fixtures.w0 ++ [Prov.ELog Prov.Critical "DB entry is not valid"]
  /\ Prov.valid_field Fixtures.nbsp = false
  /\ Prov.reg (snd (Prov.create_entry Fixtures.nbsp "/music/albumA" Fixtures.w0))
     = Prov.reg Fixtures.w0.
Proof.
  split; [left; reflexivity|].
  assert (Hn : Prov.valid_field Fixtures.nbsp = false) by (vm_compute; reflexivity).
  destruct (insert_blank_no_row "   " "/music/albumA" Fixtures.w0 (or_introl eq_refl))
    as (H1 & H2 & H3 & H4).
  split; [exact H1|]; split; [exact H2|]; split; [exact H3|]; split; [exact H4|].
  split; [exact Hn|].
  exact (proj1 (proj2 (insert_blank_no_row Fixtures.nbsp "/music/albumA" Fixtures.w0
                         (or_introl Hn)))).
Defined.

(** C5: a whitespace-only identifier returns exactly as an accepted insert
    does, with no error. *)
Lemma insert_blank_returns_normally_cex :
  fst (Prov.create_entry "   " "/music/albumA" Fixtures.w_empty) = inl tt
  /\ fst (Prov.create_entry "NFCMP_1" "/music/albumA" Fixtures.w_empty) = inl tt.
Proof. split; reflexivity. Qed.

(** C6 (corrected).  Any sequence of inserts and deletes in which every
    insert uses an identifier with no live row keeps at most one row per
    identifier; the calls raise nothing. *)
Theorem registry_at_most_one_fresh (ops : list Prov.db_op) (w : Prov.world) :
  Prov.at_most_one (Prov.reg w) ->
  Prov.fresh_inserts (Prov.reg w) ops ->
  fst (Prov.run_db ops w) = inl tt
  /\ Prov.at_most_one (Prov.reg (snd (Prov.run_db ops w))).
Proof.
  intros H1 H2.
  destruct (RegistryFacts.run_db_spec ops w) as [E1 E2].
  split; [exact E1|].
  rewrite E2; apply RegistryFacts.fold_at_most_one; assumption.
Qed.

Lemma registry_at_most_one_fresh_witness :
  Prov.at_most_one (Prov.reg Fixtures.w_empty)
  /\ Prov.fresh_inserts (Prov.reg Fixtures.w_empty)
       [Prov.OpInsert "X" "/a"; Prov.OpDelete "X"; Prov.OpInsert "X" "/b"]
  /\ fst (Prov.run_db [Prov.OpInsert "X" "/a"; Prov.OpDelete "X";
                       Prov.OpInsert "X" "/b"] Fixtures.w_empty) = inl tt
  /\ Prov.at_most_one (Prov.reg (snd (Prov.run_db
       [Prov.OpInsert "X" "/a"; Prov.OpDelete "X"; Prov.OpInsert "X" "/b"]
       Fixtures.w_empty))).
Proof.
  assert (H0 : Prov.at_most_one (Prov.reg Fixtures.w_empty))
    by (intro u; simpl; lia).
  assert (Hf : Prov.fresh_inserts (Prov.reg Fixtures.w_empty)
       [Prov.OpInsert "X" "/a"; Prov.OpDelete "X"; Prov.OpInsert "X" "/b"])
    by (simpl; repeat split).
  split; [exact H0|]; split; [exact Hf|].
  apply registry_at_most_one_fresh; assumption.
Defined.

(** C6: two inserts of one identifier leave two rows for it. *)
Lemma registry_duplicate_rows_cex :
  length (Prov.rows_for "X" (Prov.reg (snd (Prov.run_db
    [Prov.OpInsert "X" "/a"; Prov.OpInsert "X" "/b"] Fixtures.w_empty)))) = 2.
Proof. reflexivity. Qed.

(** C7 (corrected).  An accepted insert of an identifier with no row is
    read back by [get_path] as the normalized path; when the identifier
    already has a row, [get_path] after the insert (accepted or not) still
    reads back the normalized path of its first row; an identifier never
    inserted, starting from a table with no row for it, reads back [None]. *)
Theorem registry_roundtrip_fresh (u p : string) (w : Prov.world) (ops : list Prov.db_op) :
  (Prov.rows_for u (Prov.reg w) = [] ->
   Prov.valid_field u && Prov.valid_field p = true ->
   fst (Prov.get_path (Some u) (snd (Prov.create_entry u p w)))
   = inl (Some (PosixPath.normpath p)))
  /\ (forall p0, Prov.first_path u (Prov.reg w) = Some p0 ->
      fst (Prov.get_path (Some u) (snd (Prov.create_entry u p w)))
      = inl (Some (PosixPath.normpath p0)))
  /\ (Prov.rows_for u (Prov.reg w) = [] ->
      (forall q, ~ In (Prov.OpInsert u q) ops) ->
      fst (Prov.get_path (Some u) (snd (Prov.run_db ops w))) = inl None).
Proof.
  split; [|split].
  - intros Hfresh Hv.
    apply andb_true_iff in Hv as [Hu Hp].
    unfold Prov.create_entry; rewrite Hu, Hp; simpl.
    unfold Prov.get_path, Prov.bind, Prov.gets; simpl.
    rewrite RegistryFacts.first_path_app_fresh
      by (apply RegistryFacts.rows_for_nil_first_path; exact Hfresh).
    reflexivity.
  - intros p0 Hf.
    unfold Prov.create_entry.
    destruct (negb (Prov.valid_field u) || negb (Prov.valid_field p)); simpl;
      unfold Prov.get_path, Prov.bind, Prov.gets; simpl.
    + rewrite Hf; reflexivity.
    + rewrite (RegistryFacts.first_path_app_some u p0 _ _ Hf); reflexivity.
  - intros Hfresh Hno.
    destruct (RegistryFacts.run_db_spec ops w) as [_ E].
    unfold Prov.get_path, Prov.bind, Prov.gets.
    rewrite E, RegistryFacts.rows_for_nil_first_path
      by (apply RegistryFacts.fold_no_insert_first_path; assumption).
    reflexivity.
Qed.

Lemma registry_roundtrip_fresh_witness :
  Prov.rows_for "NFCMP_1" (Prov.reg Fixtures.w_empty) = []
  /\ fst (Prov.get_path (Some "NFCMP_1")
           (snd (Prov.create_entry "NFCMP_1" "/music//albumB/" Fixtures.w_empty)))
     = inl (Some (PosixPath.normpath "/music//albumB/"))
  /\ fst (Prov.get_path (Some "NFCMP_old")
           (snd (Prov.create_entry "NFCMP_old" "/music/albumB" Fixtures.w0)))
     = inl (Some (PosixPath.normpath "/music/albumA")).
Proof.
  split; [reflexivity|]; split.
  - apply (proj1 (registry_roundtrip_fresh "NFCMP_1" "/music//albumB/" Fixtures.w_empty []));
      reflexivity.
  - apply (proj1 (proj2 (registry_roundtrip_fresh "NFCMP_old" "/music/albumB" Fixtures.w0 [])));
      reflexivity.
Defined.

(** C7: a second insert of an identifier is not what [get_path] returns. *)
Lemma registry_roundtrip_duplicate_cex :
  fst (Prov.get_path (Some "X") (snd (Prov.run_db
    [Prov.OpInsert "X" "/a"; Prov.OpInsert "X" "/b"] Fixtures.w_empty)))
  = inl (Some "/a")
  /\ PosixPath.normpath "/b" = "/b".
Proof. split; reflexivity. Qed.

(* ------------------------------------------------------------------ *)
(** ** The Provisioning and Standby Controllers *)

Module ProvFacts.
Import Prov.

Lemma ask_eq (ans : list string) (w : world) : ask ans w = (ask_result ans, w).
Proof.
  induction ans as [|x rest IH]; simpl; [reflexivity|].
  destruct (String.eqb (upper x) "Y" || String.eqb (upper x) "N");
    [reflexivity | apply IH].
Qed.

Lemma ask_result_exc (ans : list string) (e : exc) :
  ask_result ans = inr e -> e = EOFError.
Proof.
  induction ans as [|x rest IH]; simpl; [congruence|].
  destruct (String.eqb (upper x) "Y" || String.eqb (upper x) "N");
    [discriminate | exact IH].
Qed.

Lemma skipn_len_app {A} (l l' : list A) : skipn (length l) (l ++ l') = l'.
Proof. induction l; simpl; auto. Qed.

Lemma opt_string_eqb_true (a b : option string) : opt_string_eqb a b = true -> a = b.
Proof.
  destruct a, b; simpl; try discriminate; auto.
  intros H; apply String.eqb_eq in H; congruence.
Qed.

Lemma play_pair (v : VLC.vlc) (obs : VLC.oracle) :
  VLC.play v obs = (fst (VLC.play v obs), None).
Proof.
  rewrite <- (VLCFacts.play_no_exception v obs).
  destruct (VLC.play v obs); reflexivity.
Qed.

Lemma existsb_set_media_play (v : VLC.vlc) (obs : VLC.oracle) :
  existsb is_set_media_list (map EVlc (fst (VLC.play v obs))) = false.
Proof.
  apply Bool.not_true_iff_false; intros Hx.
  apply existsb_exists in Hx as [e [Hin He]].
  apply in_map_iff in Hin as [c [<- Hc]].
  apply VLCFacts.play_cmds in Hc.
  destruct Hc as [-> | [-> | [-> | [[m ->] | [m ->]]]]]; discriminate.
Qed.

Lemma filter_is_vlc_map (l : list VLC.cmd) : filter is_vlc (map EVlc l) = map EVlc l.
Proof. induction l; simpl; congruence. Qed.

Lemma existsb_map_media_new (l : list string) :
  existsb is_set_media_list (map EVlc (map VLC.MediaNew l)) = false.
Proof. induction l; simpl; auto. Qed.

Lemma audio_track_logs_run (f : fs) (files : list string) (w : world) :
  audio_track_logs f files w = (inl tt, add_events w (audio_track_events f files)).
Proof.
  revert w; induction files as [|x r IH]; intros w; simpl.
  - unfold ret, add_events; rewrite app_nil_r; destruct w; reflexivity.
  - unfold bind, audio_track_log.
    destruct (isfile f x); simpl.
    + unfold log, emit; simpl; rewrite IH.
      unfold add_events; simpl; rewrite <- app_assoc; reflexivity.
    + unfold ret; rewrite IH; reflexivity.
Qed.

Lemma audio_track_events_debug (f : fs) (files : list string) :
  Forall (fun e => exists m, e = ELog Debug m) (audio_track_events f files).
Proof.
  induction files as [|x r IH]; simpl; [constructor|].
  apply Forall_app; split; [|exact IH].
  destruct (isfile f x); repeat constructor; eauto.
Qed.

Lemma existsb_audio_track_events (P : event -> bool) (f : fs) (files : list string) :
  (forall m, P (ELog Debug m) = false) ->
  existsb P (audio_track_events f files) = false.
Proof.
  intros HP; induction files as [|x r IH]; simpl; [reflexivity|].
  rewrite existsb_app, IH; destruct (isfile f x); simpl; rewrite ?HP; reflexivity.
Qed.

Lemma forallb_audio_track_events (P : event -> bool) (f : fs) (files : list string) :
  (forall m, P (ELog Debug m) = true) ->
  forallb P (audio_track_events f files) = true.
Proof.
  intros HP; induction files as [|x r IH]; simpl; [reflexivity|].
  rewrite forallb_app, IH; destruct (isfile f x); simpl; rewrite ?HP; reflexivity.
Qed.

Lemma filter_audio_track_events (P : event -> bool) (f : fs) (files : list string) :
  (forall m, P (ELog Debug m) = false) ->
  filter P (audio_track_events f files) = [].
Proof.
  intros HP; induction files as [|x r IH]; simpl; [reflexivity|].
  rewrite filter_app, IH; destruct (isfile f x); simpl; rewrite ?HP; reflexivity.
Qed.

(** Symbolic runs: string comparisons, path normalisation and table
    lookups stay folded, and the case analysis follows the branches of the
    source. *)
#[local] Arguments String.eqb : simpl never.
#[local] Arguments String.append : simpl never.
#[local] Arguments PosixPath.normpath : simpl never.
#[local] Arguments upper : simpl never.
#[local] Arguments minted : simpl never.
#[local] Arguments valid_field : simpl never.
#[local] Arguments first_path : simpl never.
#[local] Arguments opt_string_eqb : simpl never.
#[local] Arguments VLC.play : simpl never.
#[local] Arguments isfile : simpl never.
#[local] Arguments audio_track_logs : simpl never.

Ltac split_branch H :=
  match type of H with
  | context [ask ?a ?w] => rewrite (ask_eq a w) in H
  | context [ask_result ?a] =>
      let E := fresh "Eask" in
      destruct (ask_result a) eqn:E;
      [| pose proof (ask_result_exc _ _ E); subst ]
  | context [is_present ?t] => destruct (is_present t) eqn:?
  | context [ndef ?t] => destruct (ndef t) as [[|? ?]|] eqn:?
  | context [batch_mode ?e] => destruct (batch_mode e) eqn:?
  | context [pulled ?e] => destruct (pulled e) eqn:?
  | context [first_path ?u ?r] => destruct (first_path u r) eqn:?
  | context [batch_dirs ?w] => destruct (batch_dirs w) eqn:?
  | context [String.eqb ?a ?b] => destruct (String.eqb a b) eqn:?
  | context [valid_field ?a] => destruct (valid_field a) eqn:?
  | context [opt_string_eqb ?a ?b] => destruct (opt_string_eqb a b) eqn:?
  end.

Ltac unfold_assign H :=
  unfold read_and_assign, assign_new, write_tag, pop_batch, remove_entry, commit,
    get_uuid_from_tag, get_path, bind, gets, ret, raise, print, log, emit, set_tag,
    set_tag_uuid, set_batch_dirs in H.

Ltac new_events_simpl :=
  unfold new_events; cbn [trace]; rewrite <- ?app_assoc, skipn_len_app.

Ltac new_events_simpl_in H :=
  unfold new_events in H; cbn [trace] in H; rewrite <- ?app_assoc, skipn_len_app in H.

Ltac hist_simpl :=
  unfold new_hist; cbn [hist]; rewrite <- ?app_assoc, skipn_len_app.

Ltac find_precedes :=
  repeat (first [ left; split; [reflexivity | simpl; tauto] | right ]).

Ltac split_in Hin :=
  repeat (match type of Hin with _ \/ _ => destruct Hin as [Hin|Hin] end).

Lemma precedes_app (e1 e2 : event) (l1 l2 : list event) :
  In e1 l1 -> In e2 l2 -> precedes e1 e2 (l1 ++ l2).
Proof.
  induction l1 as [|x l1 IH]; simpl; [tauto|].
  intros [<- | H1] H2; [left; split; [reflexivity | apply in_or_app; right; exact H2]|].
  right; apply IH; assumption.
Qed.

(** The commit and the round-trip check: the only registry event is the
    insert of [(u, path)], made when both fields are valid, and no
    [TagCommandError] arises. *)
Lemma commit_and_verify_run (u path : string) (w w1 : world) (res : bool + exc) :
  commit_and_verify u path w = (res, w1) ->
  res <> inr TagCommandError
  /\ reg w1 = (if valid_field u && valid_field path then reg w ++ [(u, path)] else reg w)
  /\ hist w1 = hist w ++ (if valid_field u && valid_field path
                          then [reg w ++ [(u, path)]] else [])
  /\ exists ev, trace w1 = trace w ++ ev
       /\ forall e, In e ev -> e = EInsert u path \/ is_db_event e = false.
Proof.
  intros H.
  unfold commit_and_verify, create_entry, first_record, get_path, commit, bind, gets,
    ret, raise, print, log, emit in H.
  repeat (simpl in H; split_branch H).
  all: simpl in H; inversion H; subst; clear H; simpl.
  all: split; [discriminate|]; split; [rewrite ?app_nil_r; reflexivity|];
       split; [rewrite ?app_nil_r; reflexivity|].
  all: eexists; split; [rewrite <- ?app_assoc; reflexivity|].
  all: intros e He; simpl in He; split_in He; subst; auto; contradiction.
Qed.

Lemma commit_leaf (pre ev : list event) (u path : string) (res : bool + exc) (P : Prop) :
  In (ETagWrite u) pre -> (forall p, ~ In (EInsert u p) pre) ->
  res <> inr TagCommandError ->
  (forall e, In e ev -> e = EInsert u path \/ is_db_event e = false) ->
  (forall p, In (EInsert u p) (pre ++ ev) ->
     precedes (ETagWrite u) (EInsert u p) (pre ++ ev))
  /\ (res = inr TagCommandError -> P).
Proof.
  intros Hw Hni Hres _; split.
  - intros p Hin; apply in_app_or in Hin as [Hin|Hin]; [contradiction (Hni p)|].
    apply precedes_app; assumption.
  - intros E; contradiction.
Qed.

#[local] Arguments commit_and_verify : simpl never.

(** Every run of [read_and_assign]: a registry commit of the minted
    identifier comes after the tag write of that identifier; and a run
    ending in [TagCommandError] has set [self.tag.UUID] to the minted
    identifier, issued its tag write and committed no row for it. *)
Lemma read_and_assign_runs (env : prov_env) (t : tag_handle) (w w1 : world)
      (res : bool + exc) :
  read_and_assign env t w = (res, w1) ->
  (forall p, In (EInsert (minted env) p) (new_events w w1) ->
     precedes (ETagWrite (minted env)) (EInsert (minted env) p) (new_events w w1))
  /\ (res = inr TagCommandError ->
      tag_uuid w1 = Some (minted env)
      /\ In (ETagWrite (minted env)) (new_events w w1)
      /\ (forall p, ~ In (EInsert (minted env) p) (new_events w w1))).
Proof.
  intros H.
  unfold_assign H.
  repeat (simpl in H; split_branch H).
  all: simpl in H.
  all: lazymatch type of H with
    | commit_and_verify _ _ _ = _ =>
      apply commit_and_verify_run in H as (Hnt & _ & _ & ev & Htr & Hev);
      unfold new_events; rewrite Htr; cbn [trace];
      rewrite <- ?app_assoc, skipn_len_app, ?app_assoc;
      refine (commit_leaf _ _ _ _ _ _ _ _ Hnt Hev);
      [ simpl; tauto
      | intros p Hp; simpl in Hp; split_in Hp; try discriminate; contradiction ]
    | _ => inversion H; subst; clear H; split;
      [ intros p Hin; new_events_simpl; new_events_simpl_in Hin; simpl in Hin |- *;
        split_in Hin; try discriminate; contradiction
      | intros Hres;
        first [ discriminate Hres
              | split; [reflexivity|]; new_events_simpl; simpl; split; [tauto|];
                intros p Hin; split_in Hin; try discriminate; contradiction ] ]
    end.
Qed.



Lemma precedes_app_l (e1 e2 : event) (l1 l2 : list event) :
  precedes e1 e2 l1 -> precedes e1 e2 (l1 ++ l2).
Proof.
  induction l1 as [|x l1 IH]; simpl; [tauto|].
  intros [[-> H] | H]; [left; split; [reflexivity | apply in_or_app; left; exact H]|].
  right; apply IH, H.
Qed.

(** C1. When the NDEF write of the freshly minted identifier fails
    ([TagCommandError], the tag was pulled), [read_and_assign] has issued
    that write and committed no row for the identifier; the handler of
    [write_loop] then deletes the rows of [self.tag.UUID] (the minted
    identifier), logs the two errors and returns normally, leaving no row
    for the identifier. In every run, a commit of a row for the minted
    identifier comes after its tag write. *)
Theorem write_failure_no_registration (env : prov_env) (t : tag_handle) (w : world) :
  (forall res w1, read_and_assign env t w = (res, w1) ->
     forall p, In (EInsert (minted env) p) (new_events w w1) ->
       precedes (ETagWrite (minted env)) (EInsert (minted env) p) (new_events w w1))
  /\ (forall w1, read_and_assign env t w = (inr TagCommandError, w1) ->
      let w2 := snd (write_loop_turn env t w) in
      In (ETagWrite (minted env)) (new_events w w1)
      /\ (forall p, ~ In (EInsert (minted env) p) (new_events w w1))
      /\ fst (write_loop_turn env t w) = inl tt
      /\ new_events w1 w2 =
           [EDelete (Some (minted env)); ELog Error "NDEF write failed";
            ELog Error "You probably removed the tag before its UUID could be written."]
      /\ rows_for (minted env) (reg w2) = []).
Proof.
  split.
  - intros res w1 H; apply (read_and_assign_runs _ _ _ _ _ H).
  - intros w1 H.
    destruct (proj2 (read_and_assign_runs _ _ _ _ _ H) eq_refl) as (Hu & Hw & Hni).
    cbv zeta; unfold write_loop_turn, catch, bind; rewrite H.
    unfold gets, remove_entry, commit, log, emit; simpl; rewrite Hu.
    split; [exact Hw|]; split; [exact Hni|]; split; [reflexivity|]; split.
    + unfold new_events; simpl; rewrite <- !app_assoc; apply skipn_len_app.
    + pose proof (RegistryFacts.rows_for_delete (minted env) (minted env) (reg w1)) as D.
      rewrite String.eqb_refl in D; exact D.
Qed.

(** C2. On a tag whose identifier [old] is registered, with the operator
    answering "Y" and a fresh minted identifier (no row for it): the delete
    of [old] comes before the minting, the first commit of the run is that
    delete and leaves no row for [old] nor for the new identifier, and no
    table committed during the run holds a row for [old] or two rows for
    the new identifier. *)
Theorem overwrite_deletes_before_mint (env : prov_env) (t : tag_handle) (w : world)
        (old : string) (rest : list string) (p0 : string) :
  is_present t = true -> ndef t = Some (old :: rest) ->
  first_path old (reg w) = Some p0 -> ask_result (answers env) = inl "Y" ->
  rows_for (minted env) (reg w) = [] ->
  let w1 := snd (read_and_assign env t w) in
  precedes (EDelete (Some old)) (EMint (minted env)) (new_events w w1)
  /\ (exists r_del rest_h, new_hist w w1 = r_del :: rest_h
        /\ rows_for old r_del = [] /\ rows_for (minted env) r_del = [])
  /\ Forall (fun r => rows_for old r = [] /\ length (rows_for (minted env) r) <= 1)
            (new_hist w w1).
Proof.
  intros Hp Hn Hf Ha Hfresh w1.
  assert (Hne : String.eqb old (minted env) = false).
  { destruct (String.eqb old (minted env)) eqn:E; [|reflexivity].
    apply String.eqb_eq in E; rewrite <- E in Hfresh.
    exfalso; exact (RegistryFacts.first_path_rows _ _ _ Hf Hfresh). }
  subst w1. remember (read_and_assign env t w) as res eqn:H; symmetry in H.
  destruct res as [r w1]; simpl.
  unfold_assign H.
  assert (Hyn : String.eqb "Y" "N" = false) by reflexivity.
  repeat (simpl in H; first [ rewrite Hp in H | rewrite Hn in H | rewrite Hf in H
                            | rewrite Ha in H | rewrite Hyn in H | split_branch H ]).
  all: simpl in H.
  all: pose proof (RegistryFacts.rows_for_delete old old (reg w)) as D1;
       pose proof (RegistryFacts.rows_for_delete old (minted env) (reg w)) as D2;
       rewrite String.eqb_refl in D1;
       rewrite String.eqb_sym, Hne, Hfresh in D2; simpl in D1, D2.
  all: lazymatch type of H with
    | commit_and_verify _ _ _ = _ =>
      apply commit_and_verify_run in H as (_ & _ & Hh & ev & Htr & _);
      split;
      [ unfold new_events; rewrite Htr; cbn [trace];
        rewrite <- ?app_assoc, skipn_len_app, ?app_assoc;
        apply precedes_app_l; simpl; find_precedes
      | unfold new_hist; rewrite Hh; cbn [hist reg];
        rewrite <- ?app_assoc, skipn_len_app; simpl; split;
        [ eexists; eexists; split; [reflexivity | split; assumption] | ];
        apply Forall_cons; [split; [rewrite D1 | rewrite D2]; simpl; auto|];
        lazymatch goal with |- Forall _ (if ?c then _ else _) => destruct c end;
        [apply Forall_cons; [|apply Forall_nil] | apply Forall_nil];
        rewrite !RegistryFacts.rows_for_app, D1, D2;
        cbn [rows_for filter fst app]; rewrite String.eqb_refl, Hne; simpl;
        split; [reflexivity | lia] ]
    | _ =>
      inversion H; subst; clear H;
      split; [ new_events_simpl; simpl; find_precedes | ];
      hist_simpl; simpl; split;
      [ eexists; eexists; split; [reflexivity | split; assumption] | ];
      repeat apply Forall_cons; try apply Forall_nil; split;
      rewrite ?D1, ?D2; simpl; auto
    end.
Qed.


(** A standby read of a tag whose first record [u] is registered to a
    path [os.listdir] can read (or a regular file): the playlist is rebuilt
    ([SetMediaList] issued) iff [u] differs from [self.prev_uuid], which is
    [u] afterwards; [play()] always follows. *)
Lemma read_and_play_registered (f : fs) (obs : VLC.oracle) (t : tag_handle)
      (w : world) (u : string) (rest : list string) (p : string) :
  is_present t = true -> ndef t = Some (u :: rest) -> first_path u (reg w) = Some p ->
  isfile f (PosixPath.normpath p) = true \/ listdir_error f (PosixPath.normpath p) = None ->
  exists w1, read_and_play f obs t w = (inl true, w1)
    /\ reg w1 = reg w /\ prev_uuid w1 = Some u
    /\ existsb is_set_media_list (new_events w w1)
       = negb (opt_string_eqb (Some u) (prev_uuid w))
    /\ (opt_string_eqb (Some u) (prev_uuid w) = true ->
        player w1 = player w
        /\ filter is_vlc (new_events w w1) = map EVlc (fst (VLC.play (player w) obs))).
Proof.
  intros Hp Hn Hf Hl.
  unfold read_and_play, add_media_to_playlist, vlc_play, vlc_call, get_uuid_from_tag,
    get_path, set_prev_uuid, bind, gets, ret, print, log, emit, set_tag, set_tag_uuid.
  simpl; rewrite Hp; simpl; rewrite Hn; simpl; rewrite Hf; simpl.
  destruct (opt_string_eqb (Some u) (prev_uuid w)) eqn:Eq; simpl.
  - rewrite play_pair; simpl. eexists; split; [reflexivity|].
    split; [reflexivity|]. split; [symmetry; apply opt_string_eqb_true, Eq|].
    split.
    + new_events_simpl; simpl; rewrite existsb_set_media_play; reflexivity.
    + intros _; split; [reflexivity|]. new_events_simpl; simpl; apply filter_is_vlc_map.
  - destruct (isfile f (PosixPath.normpath p)) eqn:Hi; simpl.
    + rewrite play_pair; simpl;
      (eexists; split; [reflexivity|]);
      (split; [reflexivity|]); (split; [reflexivity|]);
      (split; [|discriminate]);
      new_events_simpl; simpl; rewrite ?map_app, ?existsb_app; simpl;
      rewrite ?existsb_map_media_new; simpl; reflexivity.
    + unfold os_listdir, listdir_result; rewrite Hi.
      destruct Hl as [Hl | Hl]; [discriminate|]; rewrite Hl.
      rewrite audio_track_logs_run; simpl; rewrite play_pair; simpl;
      (eexists; split; [reflexivity|]);
      (split; [reflexivity|]); (split; [reflexivity|]);
      (split; [|discriminate]);
      new_events_simpl; simpl; rewrite ?map_app, ?existsb_app; simpl;
      rewrite ?existsb_audio_track_events by reflexivity; simpl;
      rewrite ?existsb_app, ?existsb_map_media_new; simpl; reflexivity.
Qed.

(** A standby read of a tag whose first record [u] is not registered:
    nothing reaches the player and [self.prev_uuid] stays. *)
Lemma read_and_play_unregistered (f : fs) (obs : VLC.oracle) (t : tag_handle)
      (w : world) (u : string) (rest : list string) :
  is_present t = true -> ndef t = Some (u :: rest) -> first_path u (reg w) = None ->
  fst (read_and_play f obs t w) = inl true
  /\ filter is_vlc (new_events w (snd (read_and_play f obs t w))) = []
  /\ player (snd (read_and_play f obs t w)) = player w
  /\ prev_uuid (snd (read_and_play f obs t w)) = prev_uuid w.
Proof.
  intros Hp Hn Hf.
  unfold read_and_play, get_uuid_from_tag, get_path, bind, gets, ret, print, log, emit,
    set_tag, set_tag_uuid.
  simpl; rewrite Hp; simpl; rewrite Hn; simpl; rewrite Hf; simpl.
  repeat split; new_events_simpl; reflexivity.
Qed.

(** C4 (corrected). For a tag whose identifier [u] is registered to a
    path that is a regular file or a directory [os.listdir] can read, the
    standby read rebuilds the playlist iff [u] differs from
    [self.prev_uuid] (the identifier of the last rebuild), which becomes
    [u]; a second read of the same tag rebuilds nothing, leaves the player
    as it is and only issues the calls of [play()].  For a tag whose
    identifier is not registered, nothing is rebuilt, nothing reaches the
    player and the remembered identifier stays. *)
Theorem standby_debounce_registered (f : fs) (obs : VLC.oracle) (t : tag_handle)
        (w : world) (u : string) (rest : list string) :
  is_present t = true -> ndef t = Some (u :: rest) ->
  (forall p, first_path u (reg w) = Some p ->
   isfile f (PosixPath.normpath p) = true \/ listdir_error f (PosixPath.normpath p) = None ->
   let w1 := snd (read_and_play f obs t w) in
   let w2 := snd (read_and_play f obs t w1) in
   fst (read_and_play f obs t w) = inl true
   /\ existsb is_set_media_list (new_events w w1)
      = negb (opt_string_eqb (Some u) (prev_uuid w))
   /\ prev_uuid w1 = Some u
   /\ fst (read_and_play f obs t w1) = inl true
   /\ existsb is_set_media_list (new_events w1 w2) = false
   /\ prev_uuid w2 = Some u
   /\ player w2 = player w1
   /\ filter is_vlc (new_events w1 w2) = map EVlc (fst (VLC.play (player w1) obs)))
  /\ (first_path u (reg w) = None ->
      fst (read_and_play f obs t w) = inl true
      /\ filter is_vlc (new_events w (snd (read_and_play f obs t w))) = []
      /\ player (snd (read_and_play f obs t w)) = player w
      /\ prev_uuid (snd (read_and_play f obs t w)) = prev_uuid w).
Proof.
  intros Hp Hn; split; [| exact (read_and_play_unregistered f obs t w u rest Hp Hn)].
  intros p Hf Hl; cbv zeta.
  destruct (read_and_play_registered f obs t w u rest p Hp Hn Hf Hl)
    as (w1 & E1 & Hr1 & Hu1 & Hs1 & _).
  rewrite E1; simpl.
  assert (Hf1 : first_path u (reg w1) = Some p) by (rewrite Hr1; exact Hf).
  destruct (read_and_play_registered f obs t w1 u rest p Hp Hn Hf1 Hl)
    as (w2 & E2 & _ & Hu2 & Hs2 & Hsame).
  assert (Heq : opt_string_eqb (Some u) (prev_uuid w1) = true)
    by (rewrite Hu1; simpl; apply String.eqb_refl).
  rewrite Heq in Hs2; destruct (Hsame Heq) as [Hpl Hv].
  rewrite E2; simpl.
  repeat split; assumption.
Qed.

(** C4: a tag whose identifier differs from the remembered one but is not
    registered rebuilds nothing, and the remembered identifier stays. *)
Lemma standby_unregistered_cex :
  String.eqb "B" "A" = false
  /\ Prov.prev_uuid Fixtures.w_prev_A = Some "A"
  /\ Prov.ndef Fixtures.tag_B = Some ["B"]
  /\ fst (read_and_play Fixtures.fs_album Fixtures.obs_never_playing Fixtures.tag_B
            Fixtures.w_prev_A) = inl true
  /\ existsb is_set_media_list
       (new_events Fixtures.w_prev_A
          (snd (read_and_play Fixtures.fs_album Fixtures.obs_never_playing
                  Fixtures.tag_B Fixtures.w_prev_A))) = false
  /\ prev_uuid (snd (read_and_play Fixtures.fs_album Fixtures.obs_never_playing
                       Fixtures.tag_B Fixtures.w_prev_A)) = Some "A".
Proof. vm_compute; repeat split. Qed.

Lemma write_failure_no_registration_witness :
  read_and_assign Fixtures.env_pull Fixtures.old_tag Fixtures.w0
  = (inr TagCommandError, snd (read_and_assign Fixtures.env_pull Fixtures.old_tag Fixtures.w0))
  /\ rows_for (minted Fixtures.env_pull)
       (reg (snd (write_loop_turn Fixtures.env_pull Fixtures.old_tag Fixtures.w0))) = []
  /\ new_events (snd (read_and_assign Fixtures.env_pull Fixtures.old_tag Fixtures.w0))
       (snd (write_loop_turn Fixtures.env_pull Fixtures.old_tag Fixtures.w0))
     = [EDelete (Some (minted Fixtures.env_pull)); ELog Error "NDEF write failed";
        ELog Error "You probably removed the tag before its UUID could be written."].
Proof.
  assert (H : read_and_assign Fixtures.env_pull Fixtures.old_tag Fixtures.w0
    = (inr TagCommandError,
       snd (read_and_assign Fixtures.env_pull Fixtures.old_tag Fixtures.w0)))
    by (vm_compute; reflexivity).
  destruct (proj2 (write_failure_no_registration Fixtures.env_pull Fixtures.old_tag
                     Fixtures.w0) _ H) as (_ & _ & _ & Hev & Hrows).
  split; [exact H|]; split; [exact Hrows | exact Hev].
Defined.

Lemma overwrite_deletes_before_mint_witness :
  is_present Fixtures.old_tag = true
  /\ ndef Fixtures.old_tag = Some ["NFCMP_old"]
  /\ first_path "NFCMP_old" (reg Fixtures.w0) = Some "/music/albumA"
  /\ ask_result (answers Fixtures.env_ok) = inl "Y"
  /\ rows_for (minted Fixtures.env_ok) (reg Fixtures.w0) = []
  /\ precedes (EDelete (Some "NFCMP_old")) (EMint (minted Fixtures.env_ok))
       (new_events Fixtures.w0 (snd (read_and_assign Fixtures.env_ok Fixtures.old_tag
                                       Fixtures.w0))).
Proof.
  split; [reflexivity|]; split; [reflexivity|]; split; [reflexivity|];
    split; [reflexivity|]; split; [reflexivity|].
  apply (overwrite_deletes_before_mint Fixtures.env_ok Fixtures.old_tag Fixtures.w0
           "NFCMP_old" [] "/music/albumA"); reflexivity.
Defined.

Lemma standby_debounce_registered_witness :
  is_present Fixtures.tag_A = true
  /\ ndef Fixtures.tag_A = Some ["A"]
  /\ first_path "A" (reg Fixtures.w_reg_A) = Some "/music/albumA"
  /\ listdir_error Fixtures.fs_album (PosixPath.normpath "/music/albumA") = None
  /\ existsb is_set_media_list
       (new_events (snd (read_and_play Fixtures.fs_album Fixtures.obs_never_playing
                           Fixtures.tag_A Fixtures.w_reg_A))
          (snd (read_and_play Fixtures.fs_album Fixtures.obs_never_playing Fixtures.tag_A
                  (snd (read_and_play Fixtures.fs_album Fixtures.obs_never_playing
                          Fixtures.tag_A Fixtures.w_reg_A))))) = false.
Proof.
  split; [reflexivity|]; split; [reflexivity|]; split; [reflexivity|];
    split; [vm_compute; reflexivity|].
  apply (proj1 (standby_debounce_registered Fixtures.fs_album Fixtures.obs_never_playing
           Fixtures.tag_A Fixtures.w_reg_A "A" [] eq_refl eq_refl) "/music/albumA" eq_refl).
  right; vm_compute; reflexivity.
Defined.

End ProvFacts.

(* ------------------------------------------------------------------ *)
(** ** Sample runs of provisioning *)

Module ProvRuns.
Import Prov Fixtures.

Example assign_blank :
  reg (snd (write_loop_turn env_ok blank_tag w0))
  = [("NFCMP_old", "/music/albumA"); ("NFCMP_1234", "/music/albumB")].
Proof. reflexivity. Qed.

Example assign_overwrite :
  reg (snd (write_loop_turn env_ok old_tag w0)) = [("NFCMP_1234", "/music/albumB")].
Proof. reflexivity. Qed.

Example assign_pulled :
  reg (snd (write_loop_turn env_pull old_tag w0)) = [].
Proof. reflexivity. Qed.


End ProvRuns.


(** Sample values of [os.path.normpath]. *)
Example normpath_ex1 : PosixPath.normpath "/music//albumA/./" = "/music/albumA".
Proof. reflexivity. Qed.
Example normpath_ex2 : PosixPath.normpath "a/../../b" = "../b".
Proof. reflexivity. Qed.
Example normpath_ex3 : PosixPath.normpath "//x/.." = "//".
Proof. reflexivity. Qed.
Example normpath_ex4 : PosixPath.normpath "/.." = "/".
Proof. reflexivity. Qed.


(* ------------------------------------------------------------------ *)
(** ** Properties of the player code *)

Module PathFacts.
Import Prov.













End PathFacts.

Module MediaFacts.
Import Prov PlayerProps.

Lemma insert_sorted_perm (x : string) (l : list string) :
  Permutation (insert_sorted x l) (x :: l).
Proof.
  induction l as [|y l IH]; simpl; [auto|].
  destruct (String.compare x y); auto.
  eapply perm_trans; [apply perm_skip, IH | apply perm_swap].
Qed.

Lemma sorted_perm (l : list string) : Permutation (sorted l) l.
Proof.
  unfold sorted; induction l as [|x l IH]; simpl; [auto|].
  eapply perm_trans; [apply insert_sorted_perm | apply perm_skip, IH].
Qed.


Lemma insert_sorted_hd (a x : string) (l : list string) :
  HdRel str_le a l -> str_le a x -> HdRel str_le a (insert_sorted x l).
Proof.
  destruct l as [|y l]; simpl; intros H Hax; [constructor; exact Hax|].
  destruct (String.compare x y); constructor; auto; inversion H; assumption.
Qed.

Lemma insert_sorted_Sorted (x : string) (l : list string) :
  Sorted str_le l -> Sorted str_le (insert_sorted x l).
Proof.
  induction l as [|y l IH]; simpl; intros H; [repeat constructor|].
  apply Sorted_inv in H as [Hl Hh].
  destruct (String.compare x y) eqn:E.
  - constructor; [constructor; assumption | constructor; unfold str_le; rewrite E; discriminate].
  - constructor; [constructor; assumption | constructor; unfold str_le; rewrite E; discriminate].
  - constructor; [apply IH, Hl|]. apply insert_sorted_hd; [exact Hh|].
    unfold str_le; rewrite String.compare_antisym, E; discriminate.
Qed.

Lemma sorted_Sorted (l : list string) : Sorted str_le (sorted l).
Proof.
  unfold sorted; induction l as [|x l IH]; simpl; [constructor|].
  apply insert_sorted_Sorted, IH.
Qed.

Lemma count_fold {A} (g : A -> bool) (l : list A) (n : nat) :
  fold_left (fun k x => if g x then S k else k) l n = n + length (filter g l).
Proof.
  revert n; induction l as [|x l IH]; intros n; simpl; [lia|].
  destruct (g x); simpl; rewrite IH; lia.
Qed.

Lemma filter_length_existsb {A} (g : A -> bool) (l : list A) :
  (0 <? length (filter g l)) = existsb g l.
Proof.
  induction l as [|x l IH]; simpl; [reflexivity|].
  destruct (g x); simpl; [reflexivity | exact IH].
Qed.

Lemma existsb_perm {A} (g : A -> bool) (l l' : list A) :
  Permutation l l' -> existsb g l = existsb g l'.
Proof.
  induction 1; simpl; auto.
  - rewrite IHPermutation; reflexivity.
  - destruct (g x), (g y); reflexivity.
  - congruence.
Qed.

Lemma existsb_map {A B} (g : B -> bool) (h : A -> B) (l : list A) :
  existsb g (map h l) = existsb (fun x => g (h x)) l.
Proof. induction l; simpl; congruence. Qed.

Lemma listdir_result_inl (f : fs) (d : string) (names : list string) :
  listdir_result f d = inl names ->
  isfile f d = false /\ listdir_error f d = None /\ names = listdir f d.
Proof.
  unfold listdir_result; destruct (isfile f d); [discriminate|].
  destruct (listdir_error f d); [discriminate|]; intros H; injection H; auto.
Qed.

(** What [add_media_to_playlist] leaves in the playlist for a directory. *)
Lemma add_media_directory (f : fs) (d : string) (w : world) :
  isfile f d = false -> listdir_error f d = None ->
  VLC.media_list (player (snd (add_media_to_playlist f d w)))
  = filter (Prov.is_audio_track f) (map (path_join d) (sorted (listdir f d)))
  /\ VLC.player_list (player (snd (add_media_to_playlist f d w)))
  = filter (Prov.is_audio_track f) (map (path_join d) (sorted (listdir f d))).
Proof.
  intros H He; unfold add_media_to_playlist, os_listdir, listdir_result; rewrite H, He.
  unfold bind; rewrite ProvFacts.audio_track_logs_run.
  unfold vlc_call, log, emit; simpl; split; reflexivity.
Qed.

(** [add_media_to_playlist] on a path [os.listdir] refuses. *)
Lemma add_media_unlistable (f : fs) (d : string) (w : world) (e : string) :
  isfile f d = false -> listdir_error f d = Some e ->
  add_media_to_playlist f d w = (inr (Other e), w).
Proof.
  intros H He; unfold add_media_to_playlist, os_listdir, listdir_result; rewrite H, He.
  reflexivity.
Qed.

(** X2. A directory read into the playlist by [add_media_to_playlist]
    (with the MIME classifier [is_audio_track]), when [os.listdir] can
    read it, queues only regular files that are not playlist files and
    whose guessed MIME type starts with ["audio"]. *)
Theorem playlist_files_never_queued (isf : string -> bool) (ls : string -> list string)
        (lerr : string -> option string)
        (guess : string -> option string) (d : string) (w : world) :
  isf d = false -> lerr d = None ->
  forall x, In x (VLC.media_list (player (snd
              (add_media_to_playlist (Player.mime_fs isf ls lerr guess) d w)))) ->
  isf x = true /\ Player.is_playlist x = false
  /\ exists m, guess x = Some m /\ Py.starts_with "audio" m = true.
Proof.
  intros Hd He x Hx.
  rewrite (proj1 (add_media_directory (Player.mime_fs isf ls lerr guess) d w Hd He)) in Hx.
  apply filter_In in Hx as [_ Ha]; simpl in Ha.
  unfold Player.is_audio_track in Ha.
  destruct (isf x); [|discriminate].
  destruct (guess x) as [m|]; [|discriminate].
  destruct (Player.is_playlist x), (Py.starts_with "audio" m) eqn:Ea;
    simpl in Ha; try discriminate.
  split; [reflexivity|]; split; [reflexivity|]; exists m; split; [reflexivity | exact Ea].
Qed.

(** X3. A directory [os.listdir] can read is loaded as its listing in
    sorted order, joined to the directory and filtered by the audio
    classifier; the list handed to the player is that same list.  When
    [os.listdir] raises, the error leaves [add_media_to_playlist] and
    nothing has changed. *)
Theorem directory_playlist_sorted (f : fs) (d : string) (w : world) :
  isfile f d = false ->
  (listdir_error f d = None ->
   exists names,
     Permutation names (listdir f d) /\ Sorted str_le names
     /\ VLC.media_list (player (snd (add_media_to_playlist f d w)))
        = filter (Prov.is_audio_track f) (map (path_join d) names)
     /\ VLC.player_list (player (snd (add_media_to_playlist f d w)))
        = VLC.media_list (player (snd (add_media_to_playlist f d w))))
  /\ (forall e, listdir_error f d = Some e ->
      add_media_to_playlist f d w = (inr (Other e), w)).
Proof.
  intros H; split.
  - intros He; exists (sorted (listdir f d)).
    destruct (add_media_directory f d w H He) as [E1 E2].
    split; [apply sorted_perm|]; split; [apply sorted_Sorted|].
    split; [exact E1 | rewrite E1, E2; reflexivity].
  - intros e He; apply add_media_unlistable; assumption.
Qed.

Lemma count_tracks_pos (f : fs) (d : string) (names : list string) :
  (0 <? Player.count_tracks f d names)
  = existsb (fun n => Prov.is_audio_track f (path_join d n)) names.
Proof.
  unfold Player.count_tracks.
  rewrite (count_fold (fun n => Prov.is_audio_track f (path_join d n))); simpl.
  rewrite filter_length_existsb. apply existsb_perm, sorted_perm.
Qed.

Lemma add_events_nil (w : world) : add_events w [] = w.
Proof. destruct w; unfold add_events; simpl; rewrite app_nil_r; reflexivity. Qed.

Lemma add_events_app (w : world) (a b : list event) :
  add_events (add_events w a) b = add_events w (a ++ b).
Proof. unfold add_events; simpl; rewrite app_assoc; reflexivity. Qed.

(** One run of [check_if_directory_contains_media] on a path. *)
Lemma check_some_run (f : fs) (ex : string -> bool) (cm : bool) (d : string) (w : world) :
  Player.check_if_directory_contains_media f ex cm (Some d) w =
  if ex d then
    match listdir_result f d with
    | inr e => (inr e, w)
    | inl names =>
        let w1 := add_events w (audio_track_events f (map (path_join d) (sorted names))) in
        if 0 <? Player.count_tracks f d names
        then (inl true, if cm then w1 else add_events w1 [EPrint "Found tracks in directory"])
        else (inl false,
              if cm then w1 else add_events w1 [ELog Warning "No tracks found in directory."])
    end
  else (inl false, if cm then w else add_events w [ELog Warning "Not a valid path."]).
Proof.
  unfold Player.check_if_directory_contains_media, bind, ret, log, print, emit, os_listdir.
  destruct (ex d); simpl.
  - destruct (listdir_result f d) as [names|e]; [|reflexivity].
    rewrite ProvFacts.audio_track_logs_run.
    destruct (0 <? Player.count_tracks f d names), cm; reflexivity.
  - destruct cm; reflexivity.
Qed.

(** X4. [check_if_directory_contains_media]: [None] and a missing path
    give [False]; on an existing path, the error [os.listdir] raises
    (NotADirectoryError for a regular file, PermissionError, ...) leaves
    the call with nothing changed, and a listing gives whether one of its
    entries is an audio track; in check mode the only events are the
    debug lines of [is_audio_track]. *)
Theorem check_directory_result (f : fs) (ex : string -> bool) (cm : bool)
        (d : string) (w : world) :
  fst (Player.check_if_directory_contains_media f ex cm None w) = inl false
  /\ (ex d = false ->
      fst (Player.check_if_directory_contains_media f ex cm (Some d) w) = inl false)
  /\ (ex d = true -> forall e, listdir_result f d = inr e ->
      Player.check_if_directory_contains_media f ex cm (Some d) w = (inr e, w))
  /\ (ex d = true -> forall names, listdir_result f d = inl names ->
      fst (Player.check_if_directory_contains_media f ex cm (Some d) w)
      = inl (existsb (fun n => Prov.is_audio_track f (path_join d n)) names))
  /\ (cm = true -> exists evs,
      snd (Player.check_if_directory_contains_media f ex cm (Some d) w) = add_events w evs
      /\ Forall (fun e => exists m, e = ELog Debug m) evs).
Proof.
  split; [reflexivity|].
  rewrite !check_some_run.
  split; [intros ->; reflexivity|].
  split; [intros -> e ->; reflexivity|].
  split; [intros -> names ->; cbv zeta; rewrite <- count_tracks_pos;
          destruct (0 <? Player.count_tracks f d names); reflexivity|].
  intros ->; destruct (ex d).
  - destruct (listdir_result f d) as [names|e].
    + exists (audio_track_events f (map (path_join d) (sorted names))).
      split; [|apply ProvFacts.audio_track_events_debug].
      destruct (0 <? Player.count_tracks f d names); reflexivity.
    + exists []; split; [symmetry; apply add_events_nil | constructor].
  - exists []; split; [symmetry; apply add_events_nil | constructor].
Qed.

(** X5. A directory the check accepts gives a non-empty playlist, so
    [play()] takes its guarded branch that issues the play command. *)
Theorem accepted_directory_plays (f : fs) (ex : string -> bool) (cm : bool)
        (d : string) (w w' : world) (obs : VLC.oracle) :
  fst (Player.check_if_directory_contains_media f ex cm (Some d) w) = inl true ->
  0 < length (VLC.media_list (player (snd (add_media_to_playlist f d w'))))
  /\ VLC.play (player (snd (add_media_to_playlist f d w'))) obs
     = VLC.guarded VLC.ListPlay VLC.Playing "Playing." "Failed to play media player." obs.
Proof.
  rewrite check_some_run; intros H.
  destruct (ex d); [|discriminate].
  destruct (listdir_result f d) as [names|e] eqn:El; [|discriminate].
  destruct (listdir_result_inl f d names El) as (F & He & ->).
  cbv zeta in H; rewrite count_tracks_pos in H.
  destruct (existsb (fun n => Prov.is_audio_track f (path_join d n)) (listdir f d)) eqn:Hm;
    [|discriminate].
  assert (Hlen : 0 < length (VLC.media_list (player (snd (add_media_to_playlist f d w'))))).
  { rewrite (proj1 (add_media_directory f d w' F He)).
    apply Nat.ltb_lt; rewrite filter_length_existsb, existsb_map.
    rewrite (existsb_perm _ _ _ (sorted_perm (listdir f d))); exact Hm. }
  split; [exact Hlen|].
  unfold VLC.play; apply Nat.ltb_lt in Hlen; rewrite Hlen; reflexivity.
Qed.

End MediaFacts.

Module CheckFacts.
Import Prov PlayerProps MediaFacts.

Lemma printed_app (a b : list event) : printed (a ++ b) = printed a ++ printed b.
Proof. unfold printed; apply flat_map_app. Qed.

Lemma audio_track_events_quiet (f : fs) (files : list string) :
  printed (audio_track_events f files) = []
  /\ forallb print_or_debug (audio_track_events f files) = true.
Proof.
  pose proof (ProvFacts.audio_track_events_debug f files) as H.
  induction H as [|e l [m ->] _ [IH1 IH2]]; [split; reflexivity|].
  split; [exact IH1 | exact IH2].
Qed.

(** In check mode, a path that is missing or can be listed is checked
    without output other than the debug lines of [is_audio_track]. *)
Lemma check_quiet (f : fs) (ex : string -> bool) (d : string) (w : world) :
  (ex d = true -> listable f d = true) ->
  exists evs,
    Player.check_if_directory_contains_media f ex true (Some d) w
    = (inl (ex d && has_media f d), add_events w evs)
    /\ printed evs = [] /\ forallb print_or_debug evs = true.
Proof.
  intros H; rewrite check_some_run.
  destruct (ex d) eqn:E; simpl.
  - specialize (H eq_refl); unfold listable in H.
    destruct (listdir_result f d) as [names|e] eqn:El; [|discriminate].
    destruct (listdir_result_inl f d names El) as (_ & _ & ->).
    exists (audio_track_events f (map (path_join d) (sorted (listdir f d)))).
    split; [|apply audio_track_events_quiet].
    rewrite count_tracks_pos; unfold has_media.
    destruct (existsb _ (listdir f d)); reflexivity.
  - exists []; split; [rewrite add_events_nil; reflexivity | split; reflexivity].
Qed.

Lemma check_no_raise (f : fs) (ex : string -> bool) (cm : bool) (d : string) (w : world) :
  (ex d = true -> listable f d = true) ->
  exists b w1, Player.check_if_directory_contains_media f ex cm (Some d) w = (inl b, w1).
Proof.
  intros H; rewrite check_some_run.
  destruct (ex d) eqn:E; [|eauto].
  specialize (H eq_refl); unfold listable in H.
  destruct (listdir_result f d) as [names|e]; [|discriminate].
  cbv zeta; destruct (0 <? Player.count_tracks f d names); eauto.
Qed.

Lemma check_each_quiet (f : fs) (ex : string -> bool) (ps : list string) (w : world) :
  (forall p, In p ps -> ex p = true -> listable f p = true) ->
  exists evs,
    Player.check_each f ex true ps w = (inl tt, add_events w evs)
    /\ printed evs = filter (fun p => negb (ex p && has_media f p)) ps
    /\ forallb print_or_debug evs = true.
Proof.
  revert w; induction ps as [|p ps IH]; intros w H.
  - exists []; split; [rewrite add_events_nil; reflexivity | split; reflexivity].
  - assert (H' : forall q, In q ps -> ex q = true -> listable f q = true)
      by (intros q Hq; apply H; right; exact Hq).
    destruct (check_quiet f ex p w) as (evs1 & Hc & P1 & F1).
    { apply H; left; reflexivity. }
    cbn [Player.check_each]; unfold bind at 1; rewrite Hc.
    cbn [filter].
    destruct (negb (ex p && has_media f p)) eqn:Eb; unfold bind.
    + destruct (IH (add_events (add_events w evs1) [EPrint p]) H')
        as (evs2 & E2 & P2 & F2).
      unfold print, emit; cbv beta; fold (add_events (add_events w evs1) [EPrint p]).
      rewrite E2, !add_events_app.
      exists (evs1 ++ [EPrint p] ++ evs2).
      split; [rewrite app_assoc; reflexivity|].
      rewrite !printed_app, P1, P2, !forallb_app, F1, F2; split; reflexivity.
    + destruct (IH (add_events w evs1) H') as (evs2 & E2 & P2 & F2).
      unfold ret; rewrite E2, add_events_app.
      exists (evs1 ++ evs2); split; [reflexivity|].
      rewrite printed_app, P1, P2, forallb_app, F1, F2; split; reflexivity.
Qed.

Lemma check_paths_each (f : fs) (ex : string -> bool) (cm : bool) (w : world) :
  Player.check_paths f ex cm w = Player.check_each f ex cm (map snd (reg w)) w.
Proof. reflexivity. Qed.

(** X6. [check_paths] in check mode, when [os.listdir] can read every
    registered path that exists: it returns normally, only adds events
    (the table and the rest of the state stay as they are), prints exactly
    the registered paths, in table order, that are missing or hold no
    audio track, and its other events are debug lines. *)
Theorem check_paths_lists_paths_without_media (f : fs) (ex : string -> bool) (w : world) :
  forallb (fun p => negb (ex p) || listable f p) (map snd (reg w)) = true ->
  exists evs,
    Player.check_paths f ex true w = (inl tt, add_events w evs)
    /\ printed evs = filter (fun p => negb (ex p && has_media f p)) (map snd (reg w))
    /\ forallb print_or_debug evs = true.
Proof.
  intros H; rewrite check_paths_each; apply check_each_quiet.
  intros p Hp Hex; rewrite forallb_forall in H; specialize (H p Hp).
  rewrite Hex in H; exact H.
Qed.

Lemma check_each_raises (f : fs) (ex : string -> bool) (cm : bool)
      (pre post : list string) (p : string) (e : exc) (w : world) :
  forallb (fun q => negb (ex q) || listable f q) pre = true ->
  ex p = true -> listdir_result f p = inr e ->
  fst (Player.check_each f ex cm (pre ++ p :: post) w) = inr e.
Proof.
  intros Hpre Hex Hl; revert w; induction pre as [|q pre IH]; intros w.
  - cbn [app Player.check_each]; unfold bind at 1.
    rewrite check_some_run, Hex, Hl; reflexivity.
  - simpl in Hpre; apply andb_true_iff in Hpre as [Hq Hpre].
    cbn [app Player.check_each]; unfold bind at 1.
    destruct (check_no_raise f ex cm q w) as (b & w1 & Hc).
    { intros E; rewrite E in Hq; exact Hq. }
    rewrite Hc; unfold bind.
    destruct ((if negb b then print q else ret tt) w1) as [[u|e'] w2] eqn:Ew.
    + apply IH, Hpre.
    + destruct b; unfold print, emit, ret in Ew; simpl in Ew; discriminate.
Qed.

(** X7. [check_paths] ends in the error [os.listdir] raises on the first
    existing registered path it cannot list (NotADirectoryError for a
    regular file, PermissionError for an unreadable directory, ...): the
    paths before it, missing or listable, are checked without error. *)
Theorem check_paths_stops_at_unlistable (f : fs) (ex : string -> bool) (cm : bool)
        (w : world) (pre post : list string) (p : string) (e : exc) :
  map snd (reg w) = pre ++ p :: post ->
  forallb (fun q => negb (ex q) || listable f q) pre = true ->
  ex p = true -> listdir_result f p = inr e ->
  fst (Player.check_paths f ex cm w) = inr e.
Proof.
  intros Hr Hpre Hex Hl; rewrite check_paths_each, Hr.
  apply check_each_raises; assumption.
Qed.

End CheckFacts.

Module BatchFacts.
Import Prov PlayerProps.




End BatchFacts.

Module SelectFacts.
Import Prov PlayerProps.


Lemma normpath_nonempty (p : string) : PosixPath.normpath p <> "".
Proof.
  unfold PosixPath.normpath.
  destruct (String.eqb p "") ; [discriminate|].
  cbv zeta.
  match goal with |- (if String.eqb ?q "" then _ else _) <> _ =>
    destruct (String.eqb q "") eqn:E; [discriminate|] end.
  intros C; rewrite C in E; discriminate.
Qed.

Lemma read_directory_cases (inputs : list string) :
  (exists d, Player.read_directory inputs = inl d /\ ~ blank d)
  \/ (Player.read_directory inputs = inr EOFError /\ Forall blank inputs).
Proof.
  induction inputs as [|s rest IH]; simpl.
  - right; auto.
  - destruct (String.eqb s Player.newline) eqn:E1, (String.eqb s "") eqn:E2; simpl.
    1-3: destruct IH as [(d & Hd & Hb) | (Hd & Hf)]; [left; eauto | right; split; [exact Hd|]];
         constructor; [|exact Hf]; unfold blank;
         first [apply String.eqb_eq in E1; auto | apply String.eqb_eq in E2; auto].
    left; exists s; split; [reflexivity|].
    intros [C|C]; subst; [discriminate E2 | rewrite String.eqb_refl in E1; discriminate].
Qed.

(** X10. [select_media_directory] (terminal mode) either returns a
    non-empty path, or raises [EOFError] after reading only blank lines. *)
Theorem select_directory_nonempty_or_eof (o : Player.os_env) (inputs : list string) :
  (exists d, Player.select_media_directory o inputs = inl d /\ d <> "")
  \/ (Player.select_media_directory o inputs = inr EOFError /\ Forall blank inputs).
Proof.
  unfold Player.select_media_directory.
  destruct (read_directory_cases inputs) as [(d & Hd & _) | (Hd & Hf)]; rewrite Hd.
  - left; eexists; split; [reflexivity | apply normpath_nonempty].
  - right; auto.
Qed.



End SelectFacts.

Module InitFacts.

Lemma open_loop_inv (opens : nat -> bool) (fuel t : nat) :
  t + fuel = 6 ->
  (forall k, k < t -> opens k = false) ->
  let r := Player.open_loop opens (opens t) t fuel in
  t <= snd r <= 6
  /\ fst r = opens (snd r)
  /\ (forall k, k < snd r -> opens k = false)
  /\ (fst r = false -> snd r = 6).
Proof.
  revert t; induction fuel as [|fuel IH]; intros t Ht Hk; simpl.
  - repeat split; try lia; auto.
  - destruct (opens t) eqn:Eo; simpl.
    + repeat split; try lia; auto; discriminate.
    + assert (Hlt : t < 6) by lia. apply Nat.ltb_lt in Hlt; rewrite Hlt.
      destruct (IH (S t)) as (A & B & C & D); [lia | |].
      { intros k Hk'; destruct (Nat.eq_dec k t); [subst; exact Eo | apply Hk; lia]. }
      repeat split; try lia; auto.
Qed.

(** X12. The reader-opening loop of [__init__] makes at most 7 calls
    of [clf.open], stops at the first call that succeeds, and opens the
    reader iff one of the first 7 calls succeeds. *)
Theorem open_reader_first_success (opens : nat -> bool) :
  snd (Player.open_reader opens) <= 6
  /\ fst (Player.open_reader opens) = opens (snd (Player.open_reader opens))
  /\ (forall k, k < snd (Player.open_reader opens) -> opens k = false)
  /\ (fst (Player.open_reader opens) = true <-> exists k, k <= 6 /\ opens k = true).
Proof.
  destruct (open_loop_inv opens 6 0 eq_refl (fun k H => ltac:(lia))) as (A & B & C & D).
  unfold Player.open_reader.
  split; [lia|]; split; [exact B|]; split; [exact C|].
  split.
  - intros E; exists (snd (Player.open_loop opens (opens 0) 0 6)); split; [lia|].
    rewrite <- B; exact E.
  - intros (k & Hk & Ek).
    destruct (fst (Player.open_loop opens (opens 0) 0 6)) eqn:E; [reflexivity|].
    specialize (D eq_refl).
    destruct (Nat.eq_dec k 6) as [->|Hne].
    + rewrite <- D, <- B in Ek; congruence.
    + rewrite C in Ek by lia; discriminate.
Qed.

(** X13. After [__init__], [_GUI_MODE] is [not terminal_only] whatever
    [DISPLAY] holds: [set_app_display_mode] never finds it [None]. *)
Theorem gui_mode_ignores_display (a : Player.args) (loaded : list string)
        (opens : nat -> bool) (display : bool) :
  Player.gui_mode (Player.init a loaded opens display) = Some (negb (Player.terminal_only a)).
Proof.
  unfold Player.init, Player.set_app_display_mode.
  destruct (Player.terminal_only a), (Player.batch_mode_dir a), loaded,
    (Player.check_paths_arg a), (Player.open_reader opens) as [[|] t]; reflexivity.
Qed.

(** X14. What [main] runs after [__init__]: the play loop only with an
    open reader; [check_paths] without touching the reader; nothing iff
    [halt] is set; an open reader took at most 7 calls; and a batch file
    without a valid directory runs nothing and opens no reader. *)
Theorem main_dispatch_reader (a : Player.args) (loaded : list string)
        (opens : nat -> bool) (display : bool) :
  let c := Player.init a loaded opens display in
  (Player.main_run a c = Player.PlayLoop -> Player.reader_open c = true)
  /\ (Player.main_run a c = Player.CheckPaths -> Player.reader_open c = false /\ Player.open_calls c = 0)
  /\ (Player.main_run a c = Player.Idle <-> Player.halt c = true)
  /\ (Player.reader_open c = true -> Player.open_calls c <= 7)
  /\ (Player.batch_mode_dir a <> None -> loaded = [] ->
      Player.main_run a c = Player.Idle /\ Player.open_calls c = 0).
Proof.
  pose proof (open_reader_first_success opens) as (A & _).
  unfold Player.init, Player.main_run.
  destruct (Player.batch_mode_dir a) as [b|], loaded, (Player.check_paths_arg a) eqn:Ec,
    (Player.write_mode_arg a), (Player.open_reader opens) as [[|] t]; simpl in *;
    repeat split; try discriminate; try congruence; try lia; auto.
Qed.

(** X15. With [-w] and [-c] and no batch file, [main] enters the write
    loop although [__init__] never opened the reader. *)
Theorem write_and_check_flags_skip_reader (a : Player.args) (opens : nat -> bool)
        (display : bool) :
  Player.write_mode_arg a = true -> Player.check_paths_arg a = true ->
  Player.batch_mode_dir a = None ->
  let c := Player.init a [] opens display in
  Player.main_run a c = Player.WriteLoop /\ Player.reader_open c = false
  /\ Player.open_calls c = 0.
Proof.
  intros Hw Hc Hb; unfold Player.init, Player.main_run; rewrite Hb, Hc, Hw; simpl; auto.
Qed.

End InitFacts.

Module CallbackFacts.
Import Prov.

#[local] Arguments String.eqb : simpl never.
#[local] Arguments String.append : simpl never.
#[local] Arguments PosixPath.normpath : simpl never.
#[local] Arguments upper : simpl never.
#[local] Arguments minted : simpl never.
#[local] Arguments valid_field : simpl never.
#[local] Arguments first_path : simpl never.
#[local] Arguments opt_string_eqb : simpl never.
#[local] Arguments VLC.play : simpl never.
#[local] Arguments VLC.add_track_mrls : simpl never.
#[local] Arguments isfile : simpl never.
#[local] Arguments audio_track_logs : simpl never.
#[local] Arguments listdir : simpl never.

Ltac play_branch H :=
  first
    [ ProvFacts.split_branch H
    | match type of H with
      | context [isfile ?f ?p] => destruct (isfile f p) eqn:?
      | context [VLC.play ?v ?o] => rewrite (ProvFacts.play_pair v o) in H
      | context [VLC.add_track_mrls ?v ?x] =>
          destruct (VLC.add_track_mrls v x) as [? ?] eqn:?
      | context [prev_uuid ?w] => destruct (prev_uuid w) eqn:?
      | context [listdir_error ?f ?p] => destruct (listdir_error f p) eqn:?
      | context [audio_track_logs ?f ?l ?w] =>
          rewrite (ProvFacts.audio_track_logs_run f l w) in H
      end ].

Lemma no_db_map_vlc (l : list VLC.cmd) :
  forallb (fun e => negb (is_db_event e)) (map EVlc l) = true.
Proof. induction l; simpl; auto. Qed.

Lemma no_vlc_nil : forallb (fun e => negb (is_vlc e)) [] = true.
Proof. reflexivity. Qed.

(** X16. [read_and_play] never changes the table, whether it returns or
    raises (an error of [os.listdir] on the registered folder, or of the
    player): no insert, no delete, no commit. *)
Theorem read_and_play_registry_untouched (f : fs) (obs : VLC.oracle) (t : tag_handle)
        (w : world) :
  let r := read_and_play f obs t w in
  reg (snd r) = reg w /\ hist (snd r) = hist w
  /\ forallb (fun e => negb (is_db_event e)) (new_events w (snd r)) = true.
Proof.
  cbv zeta.
  destruct (read_and_play f obs t w) as [res w1] eqn:H; simpl.
  unfold read_and_play, add_media_to_playlist, vlc_play, vlc_call, get_uuid_from_tag,
    get_path, set_prev_uuid, bind, gets, ret, print, log, emit, set_tag, set_tag_uuid,
    os_listdir, listdir_result, add_events in H.
  repeat (simpl in H; play_branch H).
  all: simpl in H; inversion H; subst; clear H.
  all: split; [reflexivity|]; split; [reflexivity|].
  all: unfold new_events; cbn [trace]; rewrite <- ?app_assoc, ProvFacts.skipn_len_app.
  all: rewrite ?forallb_app; simpl; rewrite ?no_db_map_vlc;
       rewrite ?ProvFacts.forallb_audio_track_events by reflexivity; reflexivity.
Qed.


#[local] Arguments commit_and_verify : simpl never.

(** X18. Declining the overwrite prompt (["N"] in any case) for a
    registered tag returns [True] with the table, its history and the batch
    list unchanged and [self.tag.UUID] the tag's identifier; the only events
    are the prints and logs, so no identifier is minted or written. *)
Theorem declined_overwrite_keeps_registry (env : prov_env) (t : tag_handle) (w : world)
        (u : string) (rest : list string) (p : string) :
  is_present t = true -> ndef t = Some (u :: rest) -> first_path u (reg w) = Some p ->
  ask_result (answers env) = inl "N" ->
  let r := read_and_assign env t w in
  fst r = inl true
  /\ reg (snd r) = reg w /\ hist (snd r) = hist w
  /\ batch_dirs (snd r) = batch_dirs w /\ tag_uuid (snd r) = Some u
  /\ new_events w (snd r)
     = [EPrint "Checking"; ELog Info "Connected to tag."; ELog Info "Getting tag UUID";
        ELog Debug "Tag UUID"; ELog Info "Found"; EPrint "Tag is already pointing to";
        EPrint "Please remove tag."].
Proof.
  intros Hp Hn Hf Ha; cbv zeta.
  unfold read_and_assign, get_uuid_from_tag, get_path, bind, gets, ret, print, log, emit,
    set_tag, set_tag_uuid.
  simpl; rewrite Hp; simpl; rewrite Hn; simpl; rewrite Hf; simpl.
  rewrite ProvFacts.ask_eq, Ha; simpl.
  repeat split.
  unfold new_events; cbn [trace]; rewrite <- ?app_assoc, ProvFacts.skipn_len_app.
  reflexivity.
Qed.

Lemma commit_and_verify_batch (u path : string) (w : world) :
  batch_dirs (snd (commit_and_verify u path w)) = batch_dirs w.
Proof.
  destruct (commit_and_verify u path w) as [res w1] eqn:H; simpl.
  unfold commit_and_verify, create_entry, first_record, get_path, commit, bind, gets,
    ret, raise, print, log, emit in H.
  repeat (simpl in H; ProvFacts.split_branch H).
  all: simpl in H; inversion H; subst; reflexivity.
Qed.

(** X19. In batch mode a write that fails with [TagCommandError] has
    already popped its directory: after the handler of [write_loop] the
    (non-empty) batch list has lost its last entry, and the turn returns
    normally. *)
Theorem batch_failed_write_consumes_dir (env : prov_env) (t : tag_handle) (w w1 : world) :
  batch_mode env = true ->
  read_and_assign env t w = (inr TagCommandError, w1) ->
  batch_dirs w <> []
  /\ batch_dirs (snd (write_loop_turn env t w)) = removelast (batch_dirs w)
  /\ fst (write_loop_turn env t w) = inl tt.
Proof.
  intros Hb H.
  assert (Hw1 : batch_dirs w <> [] /\ batch_dirs w1 = removelast (batch_dirs w)).
  { clear -Hb H.
    unfold read_and_assign, assign_new, write_tag, pop_batch, remove_entry, commit,
      get_uuid_from_tag, get_path, bind, gets, ret, raise, print, log, emit, set_tag,
      set_tag_uuid, set_batch_dirs in H.
    rewrite Hb in H.
    repeat (simpl in H; ProvFacts.split_branch H).
    all: simpl in H.
    all: lazymatch type of H with
      | commit_and_verify ?u ?p ?w0 = _ =>
          exfalso; destruct (commit_and_verify u p w0) as [r0 w0'] eqn:Ec;
          apply ProvFacts.commit_and_verify_run in Ec as (Hnt & _);
          inversion H; subst; contradiction
      | _ => inversion H; subst; clear H
      end.
    all: split; [discriminate | reflexivity]. }
  destruct Hw1 as [Hne Hd].
  split; [exact Hne|].
  unfold write_loop_turn, catch, bind; rewrite H; simpl.
  unfold remove_entry, commit, bind, gets, log, emit; simpl.
  split; [exact Hd | reflexivity].
Qed.

End CallbackFacts.

Module ExpandFacts.

#[local] Arguments Ascii.eqb : simpl never.

Lemma last_char (h : string) :
  h <> "" -> exists l c, list_ascii_of_string h = l ++ [c]
                         /\ Prov.ends_with_slash h = Ascii.eqb c "/".
Proof.
  induction h as [|c r IH]; intros Hn; [congruence|].
  destruct r as [|c' r'].
  - exists [], c; split; reflexivity.
  - destruct IH as (l & d & E1 & E2); [discriminate|].
    exists (c :: l), d; split.
    + simpl in *; rewrite E1; reflexivity.
    + exact E2.
Qed.

Lemma rstrip_no_slash (h : string) :
  h <> "" -> Prov.ends_with_slash h = false -> PathOps.rstrip_char "/"%char h = h.
Proof.
  intros Hn He.
  destruct (last_char h Hn) as (l & c & E1 & E2).
  unfold PathOps.rstrip_char, PathOps.rstrip_by, PathOps.str_rev.
  assert (Hc : Ascii.eqb "/" c = false) by (rewrite Ascii.eqb_sym, <- E2; exact He).
  rewrite E1, rev_app_distr; simpl; rewrite Hc.
  change (String c (string_of_list_ascii (rev l)))
    with (string_of_list_ascii (c :: rev l)).
  rewrite list_ascii_of_string_of_list_ascii; simpl.
  rewrite rev_involutive, <- E1, string_of_list_ascii_of_string; reflexivity.
Qed.

Lemma substring_full (s : string) : substring 0 (String.length s) s = s.
Proof. induction s as [|d r IH]; simpl; [reflexivity | rewrite IH; reflexivity]. Qed.

(** X20. [expanduser] replaces a leading ["~/"] by [$HOME] when [$HOME]
    is non-empty and has no trailing slash. *)
Theorem expanduser_home_prefix (h : string) (pw : string -> option string) (rest : string) :
  h <> "" -> Prov.ends_with_slash h = false ->
  PathOps.expanduser (Some h) pw ("~/" ++ rest) = (h ++ "/" ++ rest)%string.
Proof.
  intros Hn He.
  unfold PathOps.expanduser; simpl.
  assert (Hs : PathOps.slice (String "~" (String "/" rest)) 1 (S (S (String.length rest)))
               = String "/" rest)
    by (unfold PathOps.slice; simpl; rewrite ?Nat.sub_0_r, substring_full; reflexivity).
  rewrite Hs.
  rewrite rstrip_no_slash by assumption.
  destruct (String.eqb (h ++ String "/" rest) "") eqn:E; [|reflexivity].
  apply String.eqb_eq in E; destruct h; [congruence | discriminate].
Qed.

End ExpandFacts.

(** Sample runs of the properties above. *)
Module PlayerWitnesses.
Import Prov PlayerFixtures.

Lemma playlist_files_never_queued_witness :
  VLC.media_list (player (snd (add_media_to_playlist fs_m "/m" Fixtures.w_empty)))
    = ["/m/a.mp3"]
  /\ Player.is_playlist "/m/a.mp3" = false.
Proof.
  assert (Hin : In "/m/a.mp3"
    (VLC.media_list (player (snd (add_media_to_playlist fs_m "/m" Fixtures.w_empty)))))
    by (vm_compute; left; reflexivity).
  split; [vm_compute; reflexivity|].
  exact (proj1 (proj2 (MediaFacts.playlist_files_never_queued isf_m ls_m lerr_m guess_m "/m"
                         Fixtures.w_empty eq_refl eq_refl "/m/a.mp3" Hin))).
Defined.

Lemma directory_playlist_sorted_witness :
  isfile fs_m "/m" = false
  /\ exists names,
    Permutation names (listdir fs_m "/m") /\ Sorted PlayerProps.str_le names
    /\ VLC.media_list (player (snd (add_media_to_playlist fs_m "/m" Fixtures.w_empty)))
       = filter (Prov.is_audio_track fs_m) (map (path_join "/m") names)
    /\ VLC.player_list (player (snd (add_media_to_playlist fs_m "/m" Fixtures.w_empty)))
       = VLC.media_list (player (snd (add_media_to_playlist fs_m "/m" Fixtures.w_empty))).
Proof.
  split; [reflexivity|].
  apply (proj1 (MediaFacts.directory_playlist_sorted fs_m "/m" Fixtures.w_empty eq_refl)).
  vm_compute; reflexivity.
Defined.

Lemma accepted_directory_plays_witness :
  fst (Player.check_if_directory_contains_media fs_m ex_m false (Some "/m") Fixtures.w_empty)
    = inl true
  /\ 0 < length (VLC.media_list (player (snd (add_media_to_playlist fs_m "/m" Fixtures.w0)))).
Proof.
  assert (H : fst (Player.check_if_directory_contains_media fs_m ex_m false (Some "/m")
                     Fixtures.w_empty) = inl true) by (vm_compute; reflexivity).
  split; [exact H|].
  exact (proj1 (MediaFacts.accepted_directory_plays fs_m ex_m false "/m" Fixtures.w_empty
                  Fixtures.w0 Fixtures.obs_never_playing H)).
Defined.

Lemma check_paths_lists_paths_without_media_witness :
  forallb (fun p => negb (ex_m p) || PlayerProps.listable fs_m p) (map snd (reg w_paths)) = true
  /\ PlayerProps.printed (new_events w_paths (snd (Player.check_paths fs_m ex_m true w_paths)))
     = ["/gone"; "/empty"].
Proof.
  assert (H : forallb (fun p => negb (ex_m p) || PlayerProps.listable fs_m p)
                (map snd (reg w_paths)) = true) by (vm_compute; reflexivity).
  split; [exact H|].
  destruct (CheckFacts.check_paths_lists_paths_without_media fs_m ex_m w_paths H)
    as (evs & E & Hp & _).
  rewrite E; unfold new_events, add_events; simpl; rewrite Hp; vm_compute; reflexivity.
Defined.

Lemma check_paths_stops_at_unlistable_witness :
  listdir_result fs_m "/locked" = inr (Other "PermissionError")
  /\ listdir_result fs_m "/m/a.mp3" = inr (Other "NotADirectoryError")
  /\ fst (Player.check_paths fs_m ex_m true w_locked) = inr (Other "PermissionError").
Proof.
  split; [vm_compute; reflexivity|]; split; [vm_compute; reflexivity|].
  apply (CheckFacts.check_paths_stops_at_unlistable fs_m ex_m true w_locked
           ["/m"] ["/m/a.mp3"] "/locked"); vm_compute; reflexivity.
Defined.




Lemma write_and_check_flags_skip_reader_witness :
  Player.main_run args_write_check (Player.init args_write_check [] (fun _ => true) true)
    = Player.WriteLoop
  /\ Player.reader_open (Player.init args_write_check [] (fun _ => true) true) = false.
Proof.
  destruct (InitFacts.write_and_check_flags_skip_reader args_write_check (fun _ => true) true
              eq_refl eq_refl eq_refl) as (H1 & H2 & _).
  split; [exact H1 | exact H2].
Defined.


Lemma declined_overwrite_keeps_registry_witness :
  ask_result (answers env_decline) = inl "N"
  /\ reg (snd (read_and_assign env_decline Fixtures.old_tag Fixtures.w0)) = reg Fixtures.w0.
Proof.
  split; [reflexivity|].
  exact (proj1 (proj2 (CallbackFacts.declined_overwrite_keeps_registry env_decline
           Fixtures.old_tag Fixtures.w0 "NFCMP_old" [] "/music/albumA"
           eq_refl eq_refl eq_refl eq_refl))).
Defined.

Lemma batch_failed_write_consumes_dir_witness :
  fst (read_and_assign env_batch_pull Fixtures.blank_tag w_batch) = inr TagCommandError
  /\ batch_dirs (snd (write_loop_turn env_batch_pull Fixtures.blank_tag w_batch)) = ["/music/a"].
Proof.
  assert (H : read_and_assign env_batch_pull Fixtures.blank_tag w_batch
              = (inr TagCommandError, snd (read_and_assign env_batch_pull Fixtures.blank_tag w_batch)))
    by (vm_compute; reflexivity).
  split; [rewrite H; reflexivity|].
  destruct (CallbackFacts.batch_failed_write_consumes_dir env_batch_pull Fixtures.blank_tag
              w_batch _ eq_refl H) as (_ & Hd & _).
  rewrite Hd; reflexivity.
Defined.

Lemma expanduser_home_prefix_witness :
  PathOps.expanduser (Some "/home/u") (fun _ => None) "~/music" = "/home/u/music".
Proof.
  apply (ExpandFacts.expanduser_home_prefix "/home/u" (fun _ => None) "music");
    [discriminate | reflexivity].
Defined.

End PlayerWitnesses.
